(** * Service-dependency graph: neighbourhood extraction and formatting

    A shallow embedding of
    [packages/jaeger-ui/src/components/DependencyGraph/DAG.tsx]:
    [findConnectedServices] (bounded breadth-first neighbourhood of a focal
    service), [formatServiceCalls] (vertex/edge lists for the layout
    engine), and the two data-dependent parts of the [DAG] component: the
    node-count ceiling and the search match count.  It also covers
    [renderNode] and the options and the life cycle of the layout manager
    that [DAG] keeps.

    Conventions.
    - A JavaScript string is a [string]: a sequence of code units, here the
      code units U+0000..U+00FF (Latin-1).  [===] on strings is equality of
      these sequences.  Lower-casing is a unit-by-unit map on these
      strings and on these only; the module [Wide] has the match test on
      a repertoire with Greek letters, where it depends on the context.
    - A JavaScript [number] that the code uses as an integer ([callCount],
      the depths, a length) is a [Z]; what is said of its conversion to a
      string is said for the safe integers, of magnitude at most
      2^53 - 1.
    - A JavaScript [Set<string>] is the list of its elements in insertion
      order (the order in which [Array.from] enumerates it).
    - An array is a list; [push] appends at the end, [shift] removes the
      head. *)

From Stdlib Require Import ZArith QArith Ascii String DecimalString.
From Stdlib Require DecimalPos DecimalZ.
From stdpp Require Import base list strings gmap.

#[local] Set Warnings "-clear-no-such-hyp".

Local Open Scope Z_scope.
Local Open Scope string_scope.

(** ** Data model *)

(** [type TServiceCall = { parent: string; child: string; callCount: number }] *)
Record TServiceCall := {
  parent : string;
  child : string;
  callCount : Z
}.

(** plexus [TVertex], of which the code uses the [key] only. *)
Record TVertex := { key : string }.

(** plexus [TEdge] as the code builds it. *)
Record TEdge := {
  from : string;
  to : string;
  label : string
}.

(** The shape [{ nodes; edges }] returned by both [findConnectedServices]
    (with [Set<string>] and [TServiceCall[]]) and [formatServiceCalls] (with
    [TVertex[]] and [TEdge[]]). *)
Record NodesEdges (N E : Type) := {
  nodes : list N;
  edges : list E
}.
Arguments nodes {N E} _.
Arguments edges {N E} _.
Arguments Build_NodesEdges {N E} _ _.

#[global] Instance TServiceCall_eq_dec : EqDecision TServiceCall.
Proof. solve_decision. Defined.
#[global] Instance TVertex_eq_dec : EqDecision TVertex.
Proof. solve_decision. Defined.
#[global] Instance TEdge_eq_dec : EqDecision TEdge.
Proof. solve_decision. Defined.

(** ** [Set<string>] *)

Module StringSet.
(** [s.has(x)] *)
Definition has (s : list string) (x : string) : bool :=
  bool_decide (x ∈ s).

(** [s.add(x)]: a new element goes last in iteration order, a present
    one keeps its place. *)
Definition add (s : list string) (x : string) : list string :=
  if has s x then s else s ++ [x].
End StringSet.

(** ** [findConnectedServices] *)

(** An entry [{ service, depth }] of the work queue. *)
Record QueueEntry := {
  service : string;
  depth : Z
}.

(** The three locals [nodes], [edges] and [queue] that the loop mutates. *)
Record Traversal := {
  found : NodesEdges string TServiceCall;
  queue : list QueueEntry
}.

(** The three statements executed when a call leads from the current
    service to an unvisited [other] endpoint:
    [nodes.add(other); edges.push(call); queue.push({service: other, depth: depth + 1})]. *)
Definition discover (depth : Z) (call : TServiceCall) (other : string)
    (t : Traversal) : Traversal :=
  {| found := {| nodes := StringSet.add (nodes (found t)) other;
                 edges := edges (found t) ++ [call] |};
     queue := queue t ++ [{| service := other; depth := depth + 1 |}] |}.

(** The body of [serviceCalls.forEach(call => ...)]: the two [if]s in
    sequence, the second one reading the set as the first one left it. *)
Definition visit (service : string) (depth : Z) (t : Traversal)
    (call : TServiceCall) : Traversal :=
  let t1 :=
    if String.eqb (parent call) service
       && negb (StringSet.has (nodes (found t)) (child call))
    then discover depth call (child call) t
    else t in
  if String.eqb (child call) service
     && negb (StringSet.has (nodes (found t1)) (parent call))
  then discover depth call (parent call) t1
  else t1.

(** One turn of the [while] body on a queue whose head is [entry]:
    [queue.shift()], then [continue] at the depth limit, else the scan of
    the whole edge list. *)
Definition iteration (serviceCalls : list TServiceCall) (maxDepth : Z)
    (entry : QueueEntry) (rest : list QueueEntry) (t : Traversal) : Traversal :=
  let t' := {| found := found t; queue := rest |} in
  if depth entry >=? maxDepth then t'
  else fold_left (visit (service entry) (depth entry)) serviceCalls t'.

(** [while (queue.length > 0) { ... }], with a bound on the number of
    turns; [None] when the bound is used up before the queue is empty. *)
Fixpoint while_queue (turns : nat) (serviceCalls : list TServiceCall)
    (maxDepth : Z) (t : Traversal) {struct turns} : option Traversal :=
  match queue t with
  | [] => Some t
  | entry :: rest =>
      match turns with
      | O => None
      | S turns' =>
          while_queue turns' serviceCalls maxDepth
            (iteration serviceCalls maxDepth entry rest t)
      end
  end.

(** The locals as initialised before the loop. *)
Definition initial (startService : string) : Traversal :=
  {| found := {| nodes := [startService]; edges := [] |};
     queue := [{| service := startService; depth := 0 |}] |}.

(** Every queue entry is a distinct visited service and every visited
    service other than the start is an endpoint of a call, so the loop
    takes at most [1 + 2 * serviceCalls.length] turns (proved below as
    [findConnectedServices_returns]). *)
Definition turns_bound (serviceCalls : list TServiceCall) : nat :=
  S (2 * length serviceCalls).

Definition findConnectedServices (serviceCalls : list TServiceCall)
    (startService : string) (maxDepth : Z)
    : option (NodesEdges string TServiceCall) :=
  found <$> while_queue (turns_bound serviceCalls) serviceCalls maxDepth
              (initial startService).

(** ** Strings and numbers as the code uses them *)

Module JS.
(** WhiteSpace and LineTerminator code units below U+0100: TAB, LF, VT,
    FF, CR, SP and NBSP. *)
Definition isWhiteSpace (c : ascii) : bool :=
  bool_decide (nat_of_ascii c ∈ [9; 10; 11; 12; 13; 32; 160]%nat).

Fixpoint trimStart (s : string) : string :=
  match s with
  | EmptyString => EmptyString
  | String c s' => if isWhiteSpace c then trimStart s' else s
  end.

Fixpoint trimEnd (s : string) : string :=
  match s with
  | EmptyString => EmptyString
  | String c s' =>
      match trimEnd s' with
      | EmptyString => if isWhiteSpace c then EmptyString else String c EmptyString
      | r => String c r
      end
  end.

(** [s.trim()] *)
Definition trim (s : string) : string := trimEnd (trimStart s).

(** The simple lower-case mapping of one code unit below U+0100: A-Z and
    the capital letters U+00C0..U+00DE (U+00D7, the multiplication sign,
    apart) move up by 32. *)
Definition lowerCaseUnit (c : ascii) : ascii :=
  let n := nat_of_ascii c in
  if bool_decide (65 ≤ n ≤ 90 ∨ 192 ≤ n ≤ 214 ∨ 216 ≤ n ≤ 222)%nat
  then ascii_of_nat (n + 32)
  else c.

(** [s.toLowerCase()] for a string of code units below U+0100, on which
    the mapping works unit by unit and keeps the length (it does neither
    on all strings: see [Wide.toLowerCase]). *)
Fixpoint toLowerCase (s : string) : string :=
  match s with
  | EmptyString => EmptyString
  | String c s' => String (lowerCaseUnit c) (toLowerCase s')
  end.

(** [s.includes(searchString)] *)
Fixpoint includes (s searchString : string) : bool :=
  if String.prefix searchString s then true
  else match s with
       | EmptyString => false
       | String _ s' => includes s' searchString
       end.

(** [`${n}`] for a safe integer [n]: its decimal digits, with a leading
    [-] when negative.  Only the safe integers (see [isSafeInteger]) are
    printed this way: a larger number is printed by the shortest digits
    that identify it (2^60 as 1152921504606847000) and from 10^21 on with
    an exponent (1e+21), which this function does not give. *)
Definition Number_toString (n : Z) : string :=
  NilZero.string_of_int (Z.to_int n).

(** [Number.isSafeInteger(n)] for an integer [n]: magnitude at most
    [Number.MAX_SAFE_INTEGER], 2^53 - 1. *)
Definition isSafeInteger (n : Z) : bool :=
  Z.leb (Z.abs n) 9007199254740991.

(** The integer that a decimal numeral denotes. *)
Definition parseDecimal (s : string) : option Z :=
  Z.of_int <$> NilZero.int_of_string s.

(** The property names that a plain object literal [{}] inherits from
    [Object.prototype]; reading any of them yields a function (or, for
    [__proto__], the prototype object), all truthy. *)
Definition Object_prototype_keys : list string :=
  [ "constructor"; "hasOwnProperty"; "isPrototypeOf";
    "propertyIsEnumerable"; "toLocaleString"; "toString"; "valueOf";
    "__proto__"; "__defineGetter__"; "__defineSetter__";
    "__lookupGetter__"; "__lookupSetter__" ].

(** Truthiness of [obj[k]] for [obj : Record<string, boolean>] created
    as [{}]: the own property when there is one, else the inherited
    one, else [undefined]. *)
Definition truthy_at (obj : gmap string bool) (k : string) : bool :=
  match obj !! k with
  | Some b => b
  | None => bool_decide (k ∈ Object_prototype_keys)
  end.

(** [`${s}`] for an optional string. *)
Definition template (s : option string) : string :=
  match s with
  | None => "undefined"
  | Some s => s
  end.
End JS.

(** ** [formatServiceCalls] *)

(** [{ from: d.parent, to: d.child, label: `${d.callCount}` }] *)
Definition toEdge (d : TServiceCall) : TEdge :=
  {| from := parent d; to := child d;
     label := JS.Number_toString (callCount d) |}.

(** The locals [nodeMap], [nodes] and [edges] of the unfiltered branch. *)
Record Unfiltered := {
  nodeMap : gmap string bool;
  out : NodesEdges TVertex TEdge
}.

(** [if (!nodeMap[name]) { nodes.push({ key: name }); nodeMap[name] = true; }] *)
Definition pushOnce (name : string) (u : Unfiltered) : Unfiltered :=
  if negb (JS.truthy_at (nodeMap u) name)
  then {| nodeMap := <[name := true]> (nodeMap u);
          out := {| nodes := nodes (out u) ++ [{| key := name |}];
                    edges := edges (out u) |} |}
  else u.

(** The body of [serviceCalls.forEach(d => ...)] in the unfiltered branch. *)
Definition collect (u : Unfiltered) (d : TServiceCall) : Unfiltered :=
  if negb (String.length (JS.trim (parent d)) =? 0)%nat
     && negb (String.length (JS.trim (child d)) =? 0)%nat
  then
    let u2 := pushOnce (child d) (pushOnce (parent d) u) in
    {| nodeMap := nodeMap u2;
       out := {| nodes := nodes (out u2);
                 edges := edges (out u2) ++ [toEdge d] |} |}
  else u.

(** The branch [if (!selectedService) { ... return { nodes, edges }; }]. *)
Definition unfiltered (serviceCalls : list TServiceCall)
    : NodesEdges TVertex TEdge :=
  out (fold_left collect serviceCalls
         {| nodeMap := ∅; out := {| nodes := []; edges := [] |} |}).

(** [selectedService : string | null]; [!selectedService] holds for [null]
    and for the empty string, which take the unfiltered branch. *)
Definition formatServiceCalls (serviceCalls : list TServiceCall)
    (selectedService : option string) (selectedDepth : Z)
    : option (NodesEdges TVertex TEdge) :=
  match selectedService with
  | None => Some (unfiltered serviceCalls)
  | Some focal =>
      if String.eqb focal "" then Some (unfiltered serviceCalls)
      else
        connected ← findConnectedServices serviceCalls focal selectedDepth;
        Some {| nodes := (λ k, {| key := k |}) <$> nodes connected;
                edges := toEdge <$> edges connected |}
  end.

(** ** The [DAG] component *)

(** [TProps], the callback reduced to whether one was passed. *)
Record TProps := {
  serviceCalls : list TServiceCall;
  selectedLayout : string;
  selectedDepth : Z;
  selectedService : string;
  uiFind : option string;
  onMatchCountChange : bool
}.

(** What the component returns: the error panel with its text, or the
    [Digraph] element with its [key], [edges] and [vertices] props. *)
Inductive Rendered :=
  | ErrorPanel (text : string)
  | Digraph (digraphKey : string) (digraphEdges : list TEdge)
      (vertices : list TVertex).

(** The effect on [[data.nodes, uiFind, onMatchCountChange]]: the argument
    of the call it makes to [onMatchCountChange], [None] when it makes
    none. *)
Definition matchCountEffect (dataNodes : list TVertex) (uiFind : option string)
    (onMatchCountChange : bool) : option Z :=
  match uiFind with
  | Some q =>
      if negb (String.eqb q "") && onMatchCountChange then
        Some (Z.of_nat (length
          (List.filter
             (λ node, JS.includes (JS.toLowerCase (key node)) (JS.toLowerCase q))
             dataNodes)))
      else if onMatchCountChange then Some 0 else None
  | None => if onMatchCountChange then Some 0 else None
  end.

(** *** The match test beyond Latin-1 *)

Module Wide.
(** Strings as sequences of UTF-16 code units, over a repertoire on which
    the lower-case mapping depends on the context: the space, the digits,
    the letters A-Z and a-z, and the Greek letters U+0391..U+03A9 (U+03A2
    is unassigned) and U+03B1..U+03C9.  Every letter of the repertoire is
    cased and no unit of it is case-ignorable. *)
Definition isUpper (u : N) : bool :=
  (N.leb 65 u && N.leb u 90) || (N.leb 913 u && N.leb u 929)
  || (N.leb 931 u && N.leb u 937).

Definition isLower (u : N) : bool :=
  (N.leb 97 u && N.leb u 122) || (N.leb 945 u && N.leb u 969).

Definition cased (u : option N) : bool :=
  match u with
  | Some u => isUpper u || isLower u
  | None => false
  end.

Definition supported (u : N) : bool :=
  isUpper u || isLower u || N.eqb u 32 || (N.leb 48 u && N.leb u 57).

(** The lower-case form of the unit [u] between the units [previous] and
    [next]: capital sigma, U+03A3, becomes the final sigma U+03C2 after a
    cased letter when no cased letter follows, and U+03C3 otherwise;
    another capital moves up by 32. *)
Definition lowerCaseUnitAt (previous : option N) (u : N) (next : option N) : N :=
  if N.eqb u 931 then
    if cased previous && negb (cased next) then 962%N else 963%N
  else if isUpper u then (u + 32)%N
  else u.

Fixpoint lowerCaseFrom (previous : option N) (s : list N) : list N :=
  match s with
  | [] => []
  | u :: rest =>
      lowerCaseUnitAt previous u (head rest) :: lowerCaseFrom (Some u) rest
  end.

(** [s.toLowerCase()]; [None] for a string outside the repertoire. *)
Definition toLowerCase (s : list N) : option (list N) :=
  if forallb supported s then Some (lowerCaseFrom None s) else None.

Fixpoint startsWith (s searchString : list N) : bool :=
  match searchString, s with
  | [], _ => true
  | _ :: _, [] => false
  | p :: ps, u :: us => N.eqb p u && startsWith us ps
  end.

(** [s.includes(searchString)] *)
Fixpoint includes (s searchString : list N) : bool :=
  if startsWith s searchString then true
  else match s with
       | [] => false
       | _ :: s' => includes s' searchString
       end.

(** [key.toLowerCase().includes(uiFind.toLowerCase())] *)
Definition isMatch (uiFind key : list N) : option bool :=
  k ← toLowerCase key; q ← toLowerCase uiFind; Some (includes k q).

(** The local [matchCount] of the effect, for the keys of [data.nodes] and
    a non-empty [uiFind]. *)
Definition matchCount (keys : list (list N)) (uiFind : list N) : option Z :=
  tests ← mapM (isMatch uiFind) keys;
  Some (Z.of_nat (length (List.filter (λ b : bool, b) tests))).

(** [q] occurs in [k] up to letter case: some stretch of [k] and [q] have
    the same lower-case form. *)
Definition occurs_ignoring_case (q k : list N) : Prop :=
  ∃ before w after lower,
    k = (before ++ w ++ after)%list
    ∧ toLowerCase w = Some lower ∧ toLowerCase q = Some lower.

(** The code units of a Latin-1 string. *)
Definition units (s : string) : list N :=
  N_of_ascii <$> list_ascii_of_string s.
End Wide.

Section Component.
(** [DAG_MAX_NUM_SERVICES], imported from [../../constants]. *)
Variable DAG_MAX_NUM_SERVICES : Z.

Definition forceFocalServiceSelection (data : NodesEdges TVertex TEdge) : bool :=
  Z.of_nat (length (nodes data)) >? DAG_MAX_NUM_SERVICES.

Definition errorText (data : NodesEdges TVertex TEdge) : string :=
  "Too many services to render ("
  ++ JS.Number_toString (Z.of_nat (length (nodes data)))
  ++ "). Hierarchical layout is disabled. For the Force-Directed layout, please select a focal service and the depth.".

Definition render (props : TProps) (data : NodesEdges TVertex TEdge) : Rendered :=
  if forceFocalServiceSelection data then ErrorPanel (errorText data)
  else
    Digraph
      (selectedLayout props ++ "-" ++ selectedService props ++ "-"
       ++ JS.Number_toString (selectedDepth props) ++ "-"
       ++ JS.template (uiFind props))
      (edges data) (nodes data).

(** The component: the memoised [data], then the element returned. *)
Definition DAG (props : TProps) : option Rendered :=
  data ← formatServiceCalls (serviceCalls props)
            (Some (selectedService props)) (selectedDepth props);
  Some (render props data).
End Component.

(** *** [renderNode] *)

(** What [renderNode] draws: the class of the circle and the text of the
    label (the enclosing elements have constant attributes). *)
Record NodeView := {
  circleClassName : string;
  labelText : string
}.

(** [renderNode(vertex, selectedService, uiFind)]; [None] is the [null]
    returned for a missing vertex. *)
Definition renderNode (vertex : option TVertex)
    (selectedService : option string) (uiFind : option string)
    : option NodeView :=
  match vertex with
  | None => None
  | Some vertex =>
      let isFocalNode :=
        match selectedService with
        | Some s => String.eqb (key vertex) s
        | None => false
        end in
      let isMatch :=
        match uiFind with
        | Some q =>
            if String.eqb q "" then false
            else JS.includes (JS.toLowerCase (key vertex)) (JS.toLowerCase q)
        | None => false
        end in
      Some {| circleClassName :=
                "DAG--nodeCircle "
                ++ (if isFocalNode then "is-focalNode" else "") ++ " "
                ++ (if isMatch then "is-match" else "");
              labelText := key vertex |}
  end.

(** *** The layout manager *)

(** [TLayoutOptions] as the component fills it: the options of the
    hierarchical layout, or those of the force-directed one ([sfdpOptions]
    flattened).  The decimal literals 1.5 and 1.6 are kept as
    rationals; nothing is computed from them. *)
Inductive TLayoutOptions :=
  | DotOptions (nodesep ranksep : Q) (rankdir splines : string)
      (useDotEdges : bool)
  | SfdpOptions (engine splines : string) (maxiter : Z) (overlap : bool)
      (dim : Z) (dpi : Z).

(** The [config] computed inside [useMemo], from [selectedLayout] and
    [data.nodes.length]. *)
Definition layoutConfig (selectedLayout : string) (nodeCount : Z)
    : TLayoutOptions :=
  if String.eqb selectedLayout "dot" then
    DotOptions (3 # 2) (8 # 5) "TB" "polyline" true
  else
    SfdpOptions "sfdp" "false" 1 false 2
      (if nodeCount >? 100 then Z.min (nodeCount * 2) 2000 else 300).

(** A [LayoutManager] instance: its identity (the rank of its creation)
    and the options it was built with. *)
Record LayoutManager := {
  managerId : nat;
  options : TLayoutOptions
}.

(** The hook state of a mounted component, as far as the layout manager
    goes: the dependencies [[selectedLayout, data.nodes.length]] of the
    last [useMemo] computation and its value, the number of managers
    created so far, and the managers on which [stopAndRelease] was
    called, in order. *)
Record Mounted := {
  memoDeps : string * Z;
  layoutManager : LayoutManager;
  created : nat;
  released : list nat
}.

(** The first render: [useMemo] computes, the effect is installed. *)
Definition mount (deps : string * Z) : Mounted :=
  {| memoDeps := deps;
     layoutManager := {| managerId := 0; options := layoutConfig deps.1 deps.2 |};
     created := 1;
     released := [] |}.

(** A later render: [useMemo] recomputes when a dependency changed; the
    effect, which depends on the manager, then runs the clean-up of the
    previous one. *)
Definition rerender (m : Mounted) (deps : string * Z) : Mounted :=
  if String.eqb (memoDeps m).1 deps.1 && Z.eqb (memoDeps m).2 deps.2 then m
  else
    {| memoDeps := deps;
       layoutManager := {| managerId := created m;
                           options := layoutConfig deps.1 deps.2 |};
       created := S (created m);
       released := released m ++ [managerId (layoutManager m)] |}.

(** Removal from the tree: the clean-up of the current effect runs; the
    result is the list of all releases. *)
Definition unmount (m : Mounted) : list nat :=
  released m ++ [managerId (layoutManager m)].

(** ** Notions used to state the properties *)

(** The edge list of the examples: a -> b -> c -> d. *)
Definition abc_calls : list TServiceCall :=
  [ {| parent := "a"; child := "b"; callCount := 3 |};
    {| parent := "b"; child := "c"; callCount := 5 |};
    {| parent := "c"; child := "d"; callCount := 1 |} ].

(** [call] joins [x] and [y], read in either direction. *)
Definition links (call : TServiceCall) (x y : string) : Prop :=
  (parent call = x ∧ child call = y) ∨ (child call = x ∧ parent call = y).

(** [hops es s n x]: [x] is [n] hops away from [s] along calls of [es],
    each traversed in either direction. *)
Inductive hops (es : list TServiceCall) (s : string) : nat → string → Prop :=
  | hops_O : hops es s 0 s
  | hops_S n x call y :
      hops es s n x → call ∈ es → links call x y → hops es s (S n) y.

(** The services next to [x]. *)
Definition neighbours (es : list TServiceCall) (x : string) : list string :=
  es ≫= λ call,
    ((if decide (parent call = x) then [child call] else [])
     ++ (if decide (child call = x) then [parent call] else []))%list.

(** The services within [n] hops of [s], with repetitions. *)
Fixpoint ball (es : list TServiceCall) (s : string) (n : nat) : list string :=
  match n with
  | O => [s]
  | S n' => ball es s n' ++ (ball es s n' ≫= neighbours es)
  end.

(** The number of distinct services within [n] hops of [s]. *)
Definition reachable_count (es : list TServiceCall) (s : string) (n : nat) : nat :=
  length (remove_dups (ball es s n)).

(** [grown calls s ns es]: the node list [ns] and the edge list [es] were
    built from [[s]] and [[]] by repeatedly appending a fresh node [y]
    together with a call of [calls] that joins [y] to a node already
    present. *)
Inductive grown (calls : list TServiceCall) (s : string)
    : list string → list TServiceCall → Prop :=
  | grown_start : grown calls s [s] []
  | grown_step ns es x y call :
      grown calls s ns es →
      call ∈ calls → links call x y → x ∈ ns → y ∉ ns →
      grown calls s (ns ++ [y]) (es ++ [call]).

(** Both names of every call, in input order. *)
Definition endpoints (calls : list TServiceCall) : list string :=
  calls ≫= λ call, [parent call; child call].

(** A list without its repetitions, each element at its first position. *)
Fixpoint first_occurrences (l : list string) : list string :=
  match l with
  | [] => []
  | x :: l' => x :: filter (λ y, y ≠ x) (first_occurrences l')
  end.

(** Empty or made of white space only. *)
Definition blank (s : string) : Prop :=
  Forall (λ c, JS.isWhiteSpace c = true) (list_ascii_of_string s).

(** A call of the unfiltered branch survives when neither name is blank. *)
Definition named (call : TServiceCall) : Prop :=
  ¬ blank (parent call) ∧ ¬ blank (child call).

(** [q] occurs in [k] up to letter case: some stretch of [k] and [q] have
    the same lower-case form. *)
Definition occurs_ignoring_case (q k : string) : Prop :=
  ∃ before w after, k = before ++ w ++ after
                    ∧ JS.toLowerCase w = JS.toLowerCase q.

#[global] Instance blank_dec s : Decision (blank s).
Proof. unfold blank. apply _. Defined.

#[global] Instance named_dec call : Decision (named call).
Proof. unfold named. apply _. Defined.

(** [count_where P l n]: exactly [n] elements of [l], counted with
    repetitions, satisfy [P]. *)
Inductive count_where {A} (P : A → Prop) : list A → nat → Prop :=
  | count_nil : count_where P [] 0
  | count_yes x l n : P x → count_where P l n → count_where P (x :: l) (S n)
  | count_no x l n : ¬ P x → count_where P l n → count_where P (x :: l) n.

(** The names that the unfiltered branch turns into vertices, in order:
    the first occurrences of the endpoints, the inherited property names
    of [nodeMap] apart. *)
Definition vertex_keys (names : list string) : list string :=
  filter (λ k, k ∉ JS.Object_prototype_keys) (first_occurrences names).

(** [marked cls view]: something is drawn and the class of its circle
    contains [cls]. *)
Definition marked (cls : string) (view : option NodeView) : Prop :=
  ∃ v, view = Some v ∧ JS.includes (circleClassName v) cls = true.

(** The hook state after the first render with the dependencies [first]
    and the later renders with the dependencies [later], in order. *)
Definition renders (first : string * Z) (later : list (string * Z)) : Mounted :=
  fold_left rerender later (mount first).

(** The test behind the class [is-match], as [renderNode] computes it. *)
Definition isMatch (uiFind : option string) (vertex : TVertex) : bool :=
  match uiFind with
  | Some q =>
      if String.eqb q "" then false
      else JS.includes (JS.toLowerCase (key vertex)) (JS.toLowerCase q)
  | None => false
  end.

(** ** Notions used in the proofs *)

(** The endpoints of the edge list that are not visited yet. *)
Definition unseen (calls : list TServiceCall) (ns : list string) : nat :=
  length (List.filter (λ x, negb (StringSet.has ns x)) (endpoints calls)).

(** What is left to do: the queue, and the services not visited yet. *)
Definition remaining (calls : list TServiceCall) (t : Traversal) : nat :=
  (length (queue t) + unseen calls (nodes (found t)))%nat.

(** The nodes and edges grow as a tree rooted at the start; every queue
    entry is a visited service whose recorded depth is the length of a
    path of recorded edges from the start; every visited service has
    such a path of at most [maxDepth] edges. *)
Record invariant (calls : list TServiceCall) (start : string) (maxDepth : Z)
    (t : Traversal) : Prop := {
  inv_grown : grown calls start (nodes (found t)) (edges (found t));
  inv_queue : ∀ e, e ∈ queue t →
    service e ∈ nodes (found t)
    ∧ ∃ n, depth e = Z.of_nat n ∧ hops (edges (found t)) start n (service e);
  inv_near : ∀ x, x ∈ nodes (found t) →
    ∃ n, (n ≤ Z.to_nat maxDepth)%nat ∧ hops (edges (found t)) start n x
}.

(** The invariant together with what is known of the entry being
    expanded. *)
Definition expanding (calls : list TServiceCall) (start : string)
    (maxDepth : Z) (e : QueueEntry) (t : Traversal) : Prop :=
  invariant calls start maxDepth t
  ∧ service e ∈ nodes (found t)
  ∧ ∃ n, depth e = Z.of_nat n ∧ hops (edges (found t)) start n (service e).

(** After the endpoints [names] have been seen: the vertices are
    [vertex_keys names], in order, and [nodeMap] holds [true] at exactly
    these keys. *)
Definition collected (names : list string) (u : Unfiltered) : Prop :=
  key <$> nodes (out u) = vertex_keys names
  ∧ ∀ k, nodeMap u !! k
         = if decide (k ∈ vertex_keys names) then Some true else None.

(** [window h past t]: the queue is a run of entries of depth [h]
    followed by a run of entries of depth [h + 1], and no entry taken off
    the queue so far ([past]) is deeper than [h]. *)
Definition window (h : Z) (past : list QueueEntry) (t : Traversal) : Prop :=
  ∃ A B, queue t = (A ++ B)%list
         ∧ (∀ e, e ∈ A → depth e = h)
         ∧ (∀ e, e ∈ B → depth e = h + 1)
         ∧ (∀ e, e ∈ past → (depth e ≤ h)%Z).

(** [closed calls maxDepth es all]: every service next to an entry of
    [es] that lies below the depth limit has an entry in [all], at most
    one level deeper. *)
Definition closed (calls : list TServiceCall) (maxDepth : Z)
    (es all : list QueueEntry) : Prop :=
  ∀ e, e ∈ es → depth e < maxDepth →
    ∀ call y, call ∈ calls → links call (service e) y →
      ∃ e', e' ∈ all ∧ service e' = y ∧ (depth e' ≤ depth e + 1)%Z.

(** [placed calls start maxDepth all]: the depth of every entry of [all]
    is the length of a path from the start to its service, within the
    depth limit. *)
Definition placed (calls : list TServiceCall) (start : string)
    (maxDepth : Z) (all : list QueueEntry) : Prop :=
  ∀ e, e ∈ all →
    ∃ n, depth e = Z.of_nat n ∧ (Z.of_nat n ≤ Z.max 0 maxDepth)%Z
         ∧ hops calls start n (service e).

(** [distance calls s x n]: the shortest path from [s] to [x] along calls
    of [calls], taken in either direction, has [n] edges. *)
Definition distance (calls : list TServiceCall) (s x : string) (n : nat) : Prop :=
  hops calls s n x ∧ ∀ k, hops calls s k x → (n ≤ k)%nat.

(** The breadth-first discipline, with the entries already taken off the
    queue kept in [past]: the entries ever queued are the visited
    services, in order; the start was queued at depth 0; the queue spans
    at most two consecutive levels; the entries already expanded are
    closed; depths are path lengths; entries leave the queue in order of
    depth; and no entry is deeper than its rank. *)
Record breadth_first (calls : list TServiceCall) (start : string)
    (maxDepth : Z) (past : list QueueEntry) (t : Traversal) : Prop := {
  bf_nodes : service <$> (past ++ queue t)%list = nodes (found t);
  bf_start : ∃ e, e ∈ (past ++ queue t)%list ∧ service e = start ∧ depth e = 0;
  bf_window : ∃ h, window h past t;
  bf_closed : closed calls maxDepth past (past ++ queue t)%list;
  bf_hops : placed calls start maxDepth (past ++ queue t)%list;
  bf_sorted : ∀ i j e1 e2, (i ≤ j)%nat →
    past !! i = Some e1 → past !! j = Some e2 → (depth e1 ≤ depth e2)%Z;
  bf_index : ∀ i e, (past ++ queue t)%list !! i = Some e →
    (depth e ≤ Z.of_nat i)%Z
}.

(** The same while the entry [e], just taken off the queue, is being
    expanded. *)
Record scanning (calls : list TServiceCall) (start : string)
    (maxDepth : Z) (past : list QueueEntry) (e : QueueEntry)
    (t : Traversal) : Prop := {
  sc_nodes : service <$> ((past ++ [e]) ++ queue t)%list = nodes (found t);
  sc_start : ∃ e', e' ∈ ((past ++ [e]) ++ queue t)%list
                   ∧ service e' = start ∧ depth e' = 0;
  sc_window : window (depth e) (past ++ [e]) t;
  sc_closed : closed calls maxDepth past ((past ++ [e]) ++ queue t)%list;
  sc_hops : placed calls start maxDepth ((past ++ [e]) ++ queue t)%list;
  sc_sorted : ∀ i j e1 e2, (i ≤ j)%nat →
    (past ++ [e])%list !! i = Some e1 → (past ++ [e])%list !! j = Some e2 →
    (depth e1 ≤ depth e2)%Z;
  sc_index : ∀ i e', ((past ++ [e]) ++ queue t)%list !! i = Some e' →
    (depth e' ≤ Z.of_nat i)%Z
}.

(** * Properties *)

(** ** The definitions at work *)

Example trim_example :
  JS.trim "  a b  " = "a b" ∧ JS.trim "   " = "" ∧ JS.trim "" = "".
Proof. done. Qed.

Example toLowerCase_example : JS.toLowerCase "Foo-BAR 9" = "foo-bar 9".
Proof. done. Qed.

Example includes_example :
  JS.includes "foo" "fo" = true ∧ JS.includes "bar" "fo" = false
  ∧ JS.includes "bar" "" = true ∧ JS.includes "" "a" = false.
Proof. done. Qed.

Example Number_toString_example :
  JS.Number_toString 3 = "3" ∧ JS.Number_toString 0 = "0"
  ∧ JS.Number_toString (-12) = "-12" ∧ JS.Number_toString 1050 = "1050".
Proof. done. Qed.

Example unfiltered_example :
  formatServiceCalls abc_calls None 1
  = Some {| nodes := [ {| key := "a" |}; {| key := "b" |};
                       {| key := "c" |}; {| key := "d" |} ];
            edges := [ {| from := "a"; to := "b"; label := "3" |};
                       {| from := "b"; to := "c"; label := "5" |};
                       {| from := "c"; to := "d"; label := "1" |} ] |}.
Proof. done. Qed.

(** A name that [nodeMap] inherits as a property reads as already seen:
    the call keeps its edge, the name gets no vertex. *)
Example inherited_name_example :
  formatServiceCalls
    [ {| parent := "a"; child := "constructor"; callCount := 1 |} ] None 0
  = Some {| nodes := [ {| key := "a" |} ];
            edges := [ {| from := "a"; to := "constructor"; label := "1" |} ] |}.
Proof. done. Qed.

Example focal_example :
  formatServiceCalls abc_calls (Some "b") 1
  = Some {| nodes := [ {| key := "b" |}; {| key := "a" |}; {| key := "c" |} ];
            edges := [ {| from := "a"; to := "b"; label := "3" |};
                       {| from := "b"; to := "c"; label := "5" |} ] |}.
Proof. done. Qed.

Example reachable_count_example :
  reachable_count abc_calls "b" 0 = 1%nat
  ∧ reachable_count abc_calls "b" 1 = 3%nat
  ∧ reachable_count abc_calls "b" 2 = 4%nat.
Proof. done. Qed.

Example DAG_example :
  DAG 3 {| serviceCalls := abc_calls; selectedLayout := "dot";
           selectedDepth := 2; selectedService := "b";
           uiFind := None; onMatchCountChange := true |}
  = Some (ErrorPanel "Too many services to render (4). Hierarchical layout is disabled. For the Force-Directed layout, please select a focal service and the depth.")
  ∧ DAG 3 {| serviceCalls := abc_calls; selectedLayout := "dot";
             selectedDepth := 1; selectedService := "b";
             uiFind := Some "b"; onMatchCountChange := true |}
    = Some (Digraph "dot-b-1-b"
              [ {| from := "a"; to := "b"; label := "3" |};
                {| from := "b"; to := "c"; label := "5" |} ]
              [ {| key := "b" |}; {| key := "a" |}; {| key := "c" |} ]).
Proof. done. Qed.

(** In focal mode no name is filtered out: a blank name next to the focal
    service gets a vertex. *)
Example focal_blank_example :
  formatServiceCalls
    [ {| parent := "a"; child := ""; callCount := 2 |} ] (Some "a") 1
  = Some {| nodes := [ {| key := "a" |}; {| key := "" |} ];
            edges := [ {| from := "a"; to := ""; label := "2" |} ] |}.
Proof. done. Qed.

Example renderNode_example :
  renderNode (Some {| key := "Foo" |}) (Some "Foo") (Some "fo")
  = Some {| circleClassName := "DAG--nodeCircle is-focalNode is-match";
            labelText := "Foo" |}
  ∧ renderNode (Some {| key := "bar" |}) (Some "Foo") (Some "fo")
    = Some {| circleClassName := "DAG--nodeCircle  "; labelText := "bar" |}
  ∧ renderNode None (Some "Foo") (Some "fo") = None.
Proof. done. Qed.

Example layoutConfig_example :
  layoutConfig "dot" 500 = DotOptions (3 # 2) (8 # 5) "TB" "polyline" true
  ∧ layoutConfig "sfdp" 100 = SfdpOptions "sfdp" "false" 1 false 2 300
  ∧ layoutConfig "sfdp" 101 = SfdpOptions "sfdp" "false" 1 false 2 202
  ∧ layoutConfig "sfdp" 5000 = SfdpOptions "sfdp" "false" 1 false 2 2000.
Proof. done. Qed.

Example renders_example :
  unmount (renders ("dot", 3) [("dot", 3); ("sfdp", 3); ("sfdp", 4); ("sfdp", 4)])
  = [0; 1; 2]%nat.
Proof. done. Qed.

(** ** Generic invariant rules for the loops *)

Lemma fold_left_invariant {A B} (P : A → Prop) (f : A → B → A) (l : list B) :
  (∀ a b, b ∈ l → P a → P (f a b)) → ∀ a, P a → P (fold_left f l a).
Proof.
  induction l as [|b l IH]; intros Hf a Ha; simpl; [done|].
  apply IH.
  - intros a' b' Hb'. apply Hf. by right.
  - apply Hf; [left | done].
Qed.

Lemma has_true ns x : StringSet.has ns x = true ↔ x ∈ ns.
Proof. unfold StringSet.has. apply bool_decide_eq_true. Qed.

Lemma has_false ns x : StringSet.has ns x = false ↔ x ∉ ns.
Proof. unfold StringSet.has. apply bool_decide_eq_false. Qed.

Lemma add_fresh ns x : x ∉ ns → StringSet.add ns x = (ns ++ [x])%list.
Proof. intros H. unfold StringSet.add. by rewrite (proj2 (has_false ns x) H). Qed.

(** The scan of one call changes the locals by at most two [discover]
    steps, each towards an unvisited service that the call joins to the
    current one. *)
Lemma visit_invariant (P : Traversal → Prop) s d call :
  (∀ t y, P t → links call s y → y ∉ nodes (found t) → P (discover d call y t)) →
  ∀ t, P t → P (visit s d t call).
Proof.
  intros Hstep t Ht. unfold visit. cbv zeta.
  assert (Hguard : ∀ (b : bool) u y,
    P u → (b = true → links call s y ∧ y ∉ nodes (found u)) →
    P (if b then discover d call y u else u)).
  { intros [] u y Hu Hb; [|done]. destruct Hb as [? ?]; [done|]. by apply Hstep. }
  apply Hguard; [apply Hguard; [done|]|].
  - intros [E1 E2]%andb_true_iff.
    apply String.eqb_eq in E1. apply negb_true_iff, has_false in E2.
    split; [by left|done].
  - intros [E1 E2]%andb_true_iff.
    apply String.eqb_eq in E1. apply negb_true_iff, has_false in E2.
    split; [by right|done].
Qed.

(** A property that holds before the loop and survives every turn holds
    when the loop ends, and the queue is empty then. *)
Lemma while_queue_invariant (P : Traversal → Prop) calls maxDepth :
  (∀ t e rest, queue t = e :: rest → P t → P (iteration calls maxDepth e rest t)) →
  ∀ turns t t', P t → while_queue turns calls maxDepth t = Some t' →
    P t' ∧ queue t' = [].
Proof.
  intros Hturn turns. induction turns as [|turns IH]; intros t t' Ht Hrun.
  - simpl in Hrun. destruct (queue t) eqn:Q; [|done].
    by injection Hrun as <-.
  - simpl in Hrun. destruct (queue t) as [|e rest] eqn:Q.
    + by injection Hrun as <-.
    + eapply IH; [|exact Hrun]. by apply Hturn.
Qed.

(** ** Termination of the loop *)

Lemma filter_unseen_step (l : list string) ns y :
  (length (List.filter (λ x, negb (StringSet.has (ns ++ [y]) x)) l)
   ≤ length (List.filter (λ x, negb (StringSet.has ns x)) l))%nat
  ∧ (y ∈ l → y ∉ ns →
     (length (List.filter (λ x, negb (StringSet.has (ns ++ [y]) x)) l)
      < length (List.filter (λ x, negb (StringSet.has ns x)) l))%nat).
Proof.
  induction l as [|a l [IH1 IH2]]; simpl.
  - split; [lia|]. intros H. by apply elem_of_nil in H.
  - destruct (StringSet.has ns a) eqn:Ha.
    + assert (StringSet.has (ns ++ [y]) a = true) as ->.
      { apply has_true, elem_of_app. left. by apply has_true. }
      simpl. split; [done|]. intros Hy Hn.
      apply elem_of_cons in Hy as [->|Hy]; [|by apply IH2].
      apply has_true in Ha. done.
    + destruct (StringSet.has (ns ++ [y]) a) eqn:Ha'; simpl.
      * split; [lia|]. intros _ _. lia.
      * split; [lia|]. intros Hy Hn.
        apply elem_of_cons in Hy as [->|Hy].
        -- apply has_false in Ha'. exfalso. apply Ha'.
           apply elem_of_app. right. by apply list_elem_of_singleton.
        -- specialize (IH2 Hy Hn). lia.
Qed.

Lemma links_endpoint calls call x y :
  call ∈ calls → links call x y → y ∈ endpoints calls.
Proof.
  intros Hc Hl. unfold endpoints. apply list_elem_of_bind.
  exists call. split; [|done].
  destruct Hl as [[_ <-]|[_ <-]]; set_solver.
Qed.

Lemma discover_remaining calls d call x y t :
  call ∈ calls → links call x y → y ∉ nodes (found t) →
  (remaining calls (discover d call y t) ≤ remaining calls t)%nat.
Proof.
  intros Hc Hl Hy. unfold remaining, unseen, discover. simpl.
  rewrite add_fresh by done. rewrite length_app. simpl.
  pose proof (filter_unseen_step (endpoints calls) (nodes (found t)) y) as [_ H].
  specialize (H (links_endpoint _ _ _ _ Hc Hl) Hy). lia.
Qed.

Lemma iteration_remaining calls maxDepth e rest t :
  queue t = e :: rest →
  (remaining calls (iteration calls maxDepth e rest t) < remaining calls t)%nat.
Proof.
  intros Q. unfold iteration.
  set (t' := {| found := found t; queue := rest |}).
  assert (H' : (remaining calls t' < remaining calls t)%nat).
  { unfold remaining. subst t'. rewrite Q. simpl. lia. }
  destruct (depth e >=? maxDepth); [done|].
  apply (fold_left_invariant (λ u, (remaining calls u < remaining calls t)%nat));
    [|done].
  intros u call Hc Hu. apply visit_invariant; [|done].
  intros u' y Hu' Hl Hy.
  pose proof (discover_remaining calls (depth e) call _ y u' Hc Hl Hy). lia.
Qed.

Lemma while_queue_returns calls maxDepth turns :
  ∀ t, (remaining calls t ≤ turns)%nat →
       is_Some (while_queue turns calls maxDepth t).
Proof.
  induction turns as [|turns IH]; intros t Ht; simpl.
  - destruct (queue t) eqn:Q; [done|].
    unfold remaining in Ht. rewrite Q in Ht. simpl in Ht. lia.
  - destruct (queue t) as [|e rest] eqn:Q; [done|].
    apply IH. pose proof (iteration_remaining calls maxDepth e rest t Q). lia.
Qed.

Lemma initial_remaining calls s :
  (remaining calls (initial s) ≤ turns_bound calls)%nat.
Proof.
  unfold remaining, unseen, turns_bound, initial. simpl.
  assert (length (endpoints calls) = 2 * length calls)%nat as E.
  { unfold endpoints. induction calls as [|c l IH]; [done|].
    rewrite bind_cons, length_app, IH. simpl. lia. }
  pose proof (List.filter_length_le
    (λ x, negb (StringSet.has [s] x)) (endpoints calls)). lia.
Qed.

(** The loop empties its queue within the bound: the function returns. *)
Lemma findConnectedServices_returns calls s maxDepth :
  ∃ t, while_queue (turns_bound calls) calls maxDepth (initial s) = Some t
       ∧ queue t = []
       ∧ findConnectedServices calls s maxDepth = Some (found t).
Proof.
  destruct (while_queue_returns calls maxDepth (turns_bound calls) (initial s))
    as [t Ht]; [apply initial_remaining|].
  exists t. split; [done|]. split.
  - eapply (while_queue_invariant (λ _, True)); eauto.
  - unfold findConnectedServices. by rewrite Ht.
Qed.

(** ** What the traversal maintains *)

Lemma hops_mono es es' s n x :
  (∀ call, call ∈ es → call ∈ es') → hops es s n x → hops es' s n x.
Proof.
  intros Hsub H. induction H as [|n x call y _ IH Hc Hl]; [constructor|].
  econstructor; eauto.
Qed.

Section Traversal.
Variable calls : list TServiceCall.
Variable start : string.
Variable maxDepth : Z.

Lemma invariant_initial : invariant calls start maxDepth (initial start).
Proof.
  split; simpl.
  - constructor.
  - intros e ->%list_elem_of_singleton. simpl. split; [by left|].
    exists 0%nat. split; [done|constructor].
  - intros x ->%list_elem_of_singleton. exists 0%nat. split; [lia|constructor].
Qed.

Lemma expanding_discover e call y t :
  depth e < maxDepth → call ∈ calls →
  expanding calls start maxDepth e t →
  links call (service e) y → y ∉ nodes (found t) →
  expanding calls start maxDepth e (discover (depth e) call y t).
Proof.
  intros Hd Hc (Hinv & Hin & n & Hn & Hhops) Hl Hy.
  destruct Hinv as [Hg Hq Hnear].
  assert (Hsub : ∀ c, c ∈ edges (found t) → c ∈ (edges (found t) ++ [call])%list).
  { intros c Hc'. apply elem_of_app. by left. }
  assert (Hnew : hops (edges (found t) ++ [call]) start (S n) y).
  { eapply hops_S; [eapply hops_mono; eauto| |exact Hl].
    apply elem_of_app. right. by apply list_elem_of_singleton. }
  unfold expanding, discover. simpl. rewrite add_fresh by done.
  split; [split; simpl|split].
  - eapply grown_step; eauto.
  - intros e' [He'| ->%list_elem_of_singleton]%elem_of_app.
    + destruct (Hq e' He') as (? & n' & ? & ?). split.
      * apply elem_of_app. by left.
      * exists n'. split; [done|]. eapply hops_mono; eauto.
    + simpl. split.
      * apply elem_of_app. right. by apply list_elem_of_singleton.
      * exists (S n). split; [lia|done].
  - intros x [Hx| ->%list_elem_of_singleton]%elem_of_app.
    + destruct (Hnear x Hx) as (n' & ? & ?).
      exists n'. split; [done|]. eapply hops_mono; eauto.
    + exists (S n). split; [lia|done].
  - apply elem_of_app. by left.
  - exists n. split; [done|]. eapply hops_mono; eauto.
Qed.

Lemma invariant_iteration t e rest :
  queue t = e :: rest → invariant calls start maxDepth t →
  invariant calls start maxDepth (iteration calls maxDepth e rest t).
Proof.
  intros Q [Hg Hq Hnear]. unfold iteration.
  set (t' := {| found := found t; queue := rest |}).
  assert (Ht' : invariant calls start maxDepth t').
  { split; simpl; [done| |done].
    intros e' He'. apply Hq. rewrite Q. by right. }
  destruct (depth e >=? maxDepth) eqn:Hd; [done|].
  rewrite Z.geb_leb in Hd. apply Z.leb_gt in Hd.
  assert (He : expanding calls start maxDepth e t').
  { split; [done|]. apply Hq. rewrite Q. by left. }
  cut (expanding calls start maxDepth e
         (fold_left (visit (service e) (depth e)) calls t'));
    [by intros [? _]|].
  apply fold_left_invariant; [|done].
  intros u call Hc Hu. apply visit_invariant; [|done].
  intros u' y Hu' Hl Hy. by apply expanding_discover.
Qed.

(** The function returns, and its result satisfies the invariant. *)
Lemma findConnectedServices_invariant :
  ∃ r, findConnectedServices calls start maxDepth = Some r
       ∧ grown calls start (nodes r) (edges r)
       ∧ ∀ x, x ∈ nodes r →
           ∃ n, (n ≤ Z.to_nat maxDepth)%nat ∧ hops (edges r) start n x.
Proof.
  destruct (findConnectedServices_returns calls start maxDepth)
    as (t & Hrun & _ & Hres).
  exists (found t). split; [done|].
  destruct (while_queue_invariant (invariant calls start maxDepth) calls maxDepth
              (λ t e rest, invariant_iteration t e rest)
              _ _ _ invariant_initial Hrun) as [[Hg _ Hnear] _].
  done.
Qed.
End Traversal.

(** ** Consequences of the tree-shaped growth *)

Lemma grown_length calls s ns es :
  grown calls s ns es → length ns = S (length es).
Proof.
  induction 1; [done|]. rewrite !length_app. simpl. lia.
Qed.

Lemma grown_first calls s ns es : grown calls s ns es → ns !! 0%nat = Some s.
Proof.
  induction 1; [done|]. by apply lookup_app_l_Some.
Qed.

Lemma grown_NoDup calls s ns es : grown calls s ns es → NoDup ns.
Proof.
  induction 1 as [|ns es x y call _ IH _ _ _ Hy].
  - apply NoDup_singleton.
  - apply NoDup_app. split; [done|]. split; [|apply NoDup_singleton].
    intros z Hz ->%list_elem_of_singleton. done.
Qed.

Lemma grown_edges calls s ns es :
  grown calls s ns es →
  ∀ call, call ∈ es → call ∈ calls ∧ parent call ∈ ns ∧ child call ∈ ns.
Proof.
  induction 1 as [|ns es x y call _ IH Hc Hl Hx Hy]; intros c Hin.
  - by apply elem_of_nil in Hin.
  - apply elem_of_app in Hin as [Hin| ->%list_elem_of_singleton].
    + destruct (IH c Hin) as (? & ? & ?).
      split; [done|]. split; apply elem_of_app; by left.
    + assert (y ∈ (ns ++ [y])%list) by (apply elem_of_app; right; by left).
      assert (x ∈ (ns ++ [y])%list) by (apply elem_of_app; by left).
      split; [done|]. by destruct Hl as [[<- <-]|[<- <-]].
Qed.

(** The [i]-th recorded edge joins the node at position [i + 1] to one of
    the nodes before it. *)
Lemma grown_at calls s ns es :
  grown calls s ns es →
  ∀ i call, es !! i = Some call →
    ∃ x y, links call x y ∧ x ∈ take (S i) ns
           ∧ ns !! S i = Some y ∧ y ∉ take (S i) ns.
Proof.
  induction 1 as [|ns es x y call Hg IH Hc Hl Hx Hy]; intros i c Hi.
  - done.
  - pose proof (grown_length _ _ _ _ Hg) as Hlen.
    apply lookup_snoc_Some in Hi as [[Hlt Hi]|[-> ->]].
    + destruct (IH i c Hi) as (x' & y' & ? & ? & ? & ?).
      exists x', y'. rewrite take_app_le by lia.
      split; [done|]. split; [done|]. split; [|done].
      by apply lookup_app_l_Some.
    + exists x, y. rewrite <- Hlen, take_app_length.
      split; [done|]. split; [done|]. split; [|done].
      rewrite lookup_app_r by lia. by rewrite Nat.sub_diag.
Qed.

(** ** Reachability within a number of hops *)

Lemma neighbours_spec es x y :
  y ∈ neighbours es x ↔ ∃ call, call ∈ es ∧ links call x y.
Proof.
  unfold neighbours, links. rewrite list_elem_of_bind. split.
  - intros (call & Hy & Hc). exists call. split; [done|].
    apply elem_of_app in Hy as [Hy|Hy]; case_decide;
      try (by apply elem_of_nil in Hy);
      apply list_elem_of_singleton in Hy; subst; auto.
  - intros (call & Hc & Hl). exists call. split; [|done].
    apply elem_of_app. destruct Hl as [[Hp Hch]|[Hch Hp]].
    + left. rewrite decide_True by done. subst. by left.
    + right. rewrite decide_True by done. subst. by left.
Qed.

Lemma ball_mono es s n m x : (n ≤ m)%nat → x ∈ ball es s n → x ∈ ball es s m.
Proof.
  induction 1 as [|m _ IH]; [done|].
  intros Hx. simpl. apply elem_of_app. left. by apply IH.
Qed.

(** [ball] lists exactly the services within [n] hops. *)
Lemma ball_spec es s n x :
  x ∈ ball es s n ↔ ∃ k, (k ≤ n)%nat ∧ hops es s k x.
Proof.
  split.
  - revert x. induction n as [|n IH]; intros x Hx; simpl in Hx.
    + apply list_elem_of_singleton in Hx as ->.
      exists 0%nat. split; [done|constructor].
    + apply elem_of_app in Hx as [Hx|Hx].
      * destruct (IH x Hx) as (k & ? & ?). exists k. split; [lia|done].
      * apply list_elem_of_bind in Hx as (z & Hx & Hz).
        destruct (IH z Hz) as (k & ? & ?).
        apply neighbours_spec in Hx as (call & ? & ?).
        exists (S k). split; [lia|]. econstructor; eauto.
  - intros (k & Hk & Hh). revert n Hk.
    induction Hh as [|k z call y _ IH Hc Hl]; intros n Hk.
    + apply (ball_mono es s 0); [lia|]. by left.
    + destruct n as [|n]; [lia|]. simpl. apply elem_of_app. right.
      apply list_elem_of_bind. exists z. split; [|apply IH; lia].
      apply neighbours_spec. eauto.
Qed.

(** ** The claims on [findConnectedServices] *)

(** C1. On the edges a-b (3), b-c (5), c-d (1) with focal service b, depth 1
    gives the nodes b, a, c (the set {a, b, c}) with the edges a-b and b-c,
    and depth 2 gives the nodes b, a, c, d (the set {a, b, c, d}) with all
    three edges. *)
Theorem findConnectedServices_abc :
  ∃ r1 r2,
    findConnectedServices abc_calls "b" 1 = Some r1
    ∧ findConnectedServices abc_calls "b" 2 = Some r2
    ∧ nodes r1 = ["b"; "a"; "c"]
    ∧ nodes r1 ≡ₚ ["a"; "b"; "c"]
    ∧ edges r1 ≡ₚ [ {| parent := "a"; child := "b"; callCount := 3 |};
                    {| parent := "b"; child := "c"; callCount := 5 |} ]
    ∧ nodes r2 = ["b"; "a"; "c"; "d"]
    ∧ nodes r2 ≡ₚ ["a"; "b"; "c"; "d"]
    ∧ edges r2 ≡ₚ abc_calls.
Proof.
  eexists _, _. split; [vm_compute; reflexivity|].
  split; [vm_compute; reflexivity|]. simpl.
  split; [done|]. split; [apply Permutation_swap|]. split; [done|].
  split; [done|]. split; [apply Permutation_swap|done].
Qed.



(** C3. The result has one edge less than nodes; the nodes are pairwise
    distinct and start with the focal service; the edge at position [i]
    joins the node at position [i + 1], not seen before, to one of the
    nodes before it (so no edge joins two nodes that were both already
    discovered); and every node is connected to the focal service by
    returned edges alone. *)
Theorem findConnectedServices_spanning_tree calls s maxDepth :
  ∃ r, findConnectedServices calls s maxDepth = Some r
       ∧ length (edges r) = (length (nodes r) - 1)%nat
       ∧ nodes r !! 0%nat = Some s
       ∧ NoDup (nodes r)
       ∧ (∀ i call, edges r !! i = Some call →
            ∃ x y, links call x y ∧ x ∈ take (S i) (nodes r)
                   ∧ nodes r !! S i = Some y ∧ y ∉ take (S i) (nodes r))
       ∧ (∀ x, x ∈ nodes r → ∃ n, hops (edges r) s n x).
Proof.
  destruct (findConnectedServices_invariant calls s maxDepth) as (r & Hr & Hg & Hn).
  exists r. split; [done|].
  split; [rewrite (grown_length _ _ _ _ Hg); lia|].
  split; [by eapply grown_first|].
  split; [by eapply grown_NoDup|].
  split; [by eapply grown_at|].
  intros x Hx. destruct (Hn x Hx) as (n & _ & ?). eauto.
Qed.

(** C4. With [maxDepth = 0] the result is the focal service alone and no
    edge, for [findConnectedServices] and, the focal service being
    non-empty, for [formatServiceCalls]. *)
Theorem depth_zero calls s :
  findConnectedServices calls s 0 = Some {| nodes := [s]; edges := [] |}
  ∧ (s ≠ "" →
     formatServiceCalls calls (Some s) 0
     = Some {| nodes := [{| key := s |}]; edges := [] |}).
Proof.
  assert (H : findConnectedServices calls s 0
              = Some {| nodes := [s]; edges := [] |}).
  { unfold findConnectedServices, turns_bound. simpl.
    by destruct (length calls + _)%nat. }
  split; [done|]. intros Hs.
  unfold formatServiceCalls.
  rewrite (proj2 (String.eqb_neq s "") Hs). by rewrite H.
Qed.

Lemma depth_zero_witness :
  findConnectedServices abc_calls "b" 0 = Some {| nodes := ["b"]; edges := [] |}
  ∧ formatServiceCalls abc_calls (Some "b") 0
    = Some {| nodes := [{| key := "b" |}]; edges := [] |}.
Proof.
  destruct (depth_zero abc_calls "b") as [H1 H2].
  split; [exact H1|]. apply H2. discriminate.
Defined.

(** C5. The focal service is among the returned nodes, whatever the edges
    and the depth: in the set returned by [findConnectedServices] and, the
    focal service being non-empty, among the vertices returned by
    [formatServiceCalls]. *)
Theorem focal_service_present calls s maxDepth :
  (∃ r, findConnectedServices calls s maxDepth = Some r ∧ s ∈ nodes r)
  ∧ (s ≠ "" →
     ∃ data, formatServiceCalls calls (Some s) maxDepth = Some data
             ∧ {| key := s |} ∈ nodes data).
Proof.
  destruct (findConnectedServices_invariant calls s maxDepth) as (r & Hr & Hg & _).
  assert (Hin : s ∈ nodes r).
  { eapply list_elem_of_lookup_2, grown_first, Hg. }
  split; [eauto|]. intros Hs.
  unfold formatServiceCalls.
  rewrite (proj2 (String.eqb_neq s "") Hs). rewrite Hr. simpl.
  eexists. split; [done|]. simpl.
  apply list_elem_of_fmap. eauto.
Qed.

Lemma focal_service_present_witness :
  (∃ r, findConnectedServices [] "lonely" 3 = Some r ∧ "lonely" ∈ nodes r)
  ∧ (∃ data, formatServiceCalls [] (Some "lonely") 3 = Some data
             ∧ {| key := "lonely" |} ∈ nodes data).
Proof.
  destruct (focal_service_present [] "lonely" 3) as [H1 H2].
  split; [exact H1|]. apply H2. discriminate.
Defined.

(** C8. Every returned node is within [maxDepth] hops of the focal service
    along input edges taken in either direction (within 0 hops when
    [maxDepth] is negative), so there are at most as many returned nodes
    as distinct services within that many hops. *)
Theorem findConnectedServices_within_depth calls s maxDepth :
  ∃ r, findConnectedServices calls s maxDepth = Some r
       ∧ (∀ x, x ∈ nodes r →
            ∃ n, (n ≤ Z.to_nat maxDepth)%nat ∧ hops calls s n x)
       ∧ (length (nodes r) ≤ reachable_count calls s (Z.to_nat maxDepth))%nat.
Proof.
  destruct (findConnectedServices_invariant calls s maxDepth) as (r & Hr & Hg & Hn).
  assert (Hhops : ∀ x, x ∈ nodes r →
            ∃ n, (n ≤ Z.to_nat maxDepth)%nat ∧ hops calls s n x).
  { intros x Hx. destruct (Hn x Hx) as (n & ? & Hh). exists n. split; [done|].
    eapply hops_mono; [|exact Hh]. intros call Hc.
    by destruct (grown_edges _ _ _ _ Hg call Hc). }
  exists r. split; [done|]. split; [done|].
  unfold reachable_count. apply submseteq_length, NoDup_submseteq.
  - by eapply grown_NoDup.
  - intros x Hx. apply elem_of_remove_dups, ball_spec. auto.
Qed.

(** ** Strings *)

Lemma length_zero_empty (s : string) : String.length s = 0%nat ↔ s = "".
Proof. by destruct s. Qed.

Lemma blank_cons c s :
  blank (String c s) ↔ JS.isWhiteSpace c = true ∧ blank s.
Proof. unfold blank. simpl. by rewrite Forall_cons. Qed.

Lemma trimStart_blank s : blank (JS.trimStart s) ↔ blank s.
Proof.
  induction s as [|c s IH]; simpl; [done|].
  destruct (JS.isWhiteSpace c) eqn:E; [|done].
  rewrite blank_cons, IH. naive_solver.
Qed.

Lemma trimEnd_empty s : JS.trimEnd s = "" ↔ blank s.
Proof.
  induction s as [|c s IH]; simpl.
  - split; [intros _; constructor|done].
  - rewrite blank_cons. destruct (JS.trimEnd s) eqn:E.
    + destruct (JS.isWhiteSpace c); naive_solver.
    + split; [done|]. intros [_ Hs]. by apply IH in Hs.
Qed.

(** The test [s.trim().length !== 0] fails exactly on blank names. *)
Lemma trim_blank s : String.length (JS.trim s) = 0%nat ↔ blank s.
Proof.
  unfold JS.trim. by rewrite length_zero_empty, trimEnd_empty, trimStart_blank.
Qed.

Lemma blank_empty : blank "".
Proof. constructor. Qed.

Lemma collect_guard d :
  negb (String.length (JS.trim (parent d)) =? 0)%nat
  && negb (String.length (JS.trim (child d)) =? 0)%nat = true ↔ named d.
Proof.
  unfold named.
  rewrite andb_true_iff, !negb_true_iff, !Nat.eqb_neq, !trim_blank. done.
Qed.

(** ** First occurrences *)

Lemma elem_of_first_occurrences l x : x ∈ first_occurrences l ↔ x ∈ l.
Proof.
  induction l as [|a l IH]; simpl; [done|].
  rewrite !elem_of_cons, list_elem_of_filter, IH.
  destruct (decide (x = a)); naive_solver.
Qed.

Lemma NoDup_first_occurrences l : NoDup (first_occurrences l).
Proof.
  induction l as [|a l IH]; simpl; [constructor|].
  constructor; [|by apply NoDup_filter].
  rewrite list_elem_of_filter. naive_solver.
Qed.

Lemma first_occurrences_snoc l x :
  first_occurrences (l ++ [x])
  = if decide (x ∈ l) then first_occurrences l
    else (first_occurrences l ++ [x])%list.
Proof.
  induction l as [|a l IH]; simpl; [done|].
  rewrite IH. destruct (decide (x ∈ l)) as [Hin|Hin].
  - rewrite decide_True; [done|]. rewrite elem_of_cons. by right.
  - rewrite filter_app, filter_cons, filter_nil.
    destruct (decide (x = a)) as [->|Hne].
    + rewrite (decide_False (P := a ≠ a)) by naive_solver.
      rewrite (decide_True (P := a ∈ a :: l)) by (rewrite elem_of_cons; by left).
      by rewrite app_nil_r.
    + rewrite (decide_True (P := x ≠ a)) by done.
      rewrite (decide_False (P := x ∈ a :: l)); [done|].
      rewrite elem_of_cons. naive_solver.
Qed.

Lemma elem_of_vertex_keys names k :
  k ∈ vertex_keys names ↔ k ∈ names ∧ k ∉ JS.Object_prototype_keys.
Proof.
  unfold vertex_keys.
  rewrite list_elem_of_filter, elem_of_first_occurrences. naive_solver.
Qed.

Lemma vertex_keys_snoc names x :
  vertex_keys (names ++ [x])
  = if decide (x ∈ names ∨ x ∈ JS.Object_prototype_keys) then vertex_keys names
    else (vertex_keys names ++ [x])%list.
Proof.
  unfold vertex_keys. rewrite first_occurrences_snoc.
  destruct (decide (x ∈ names)) as [Hin|Hin].
  - rewrite decide_True; [done|by left].
  - rewrite filter_app, filter_cons, filter_nil.
    destruct (decide (x ∈ JS.Object_prototype_keys)) as [Hp|Hp].
    + rewrite (decide_False (P := x ∉ JS.Object_prototype_keys)) by naive_solver.
      rewrite decide_True; [by rewrite app_nil_r|by right].
    + rewrite (decide_True (P := x ∉ JS.Object_prototype_keys)) by done.
      rewrite decide_False; [done|naive_solver].
Qed.

Lemma NoDup_vertex_keys names : NoDup (vertex_keys names).
Proof. apply NoDup_filter, NoDup_first_occurrences. Qed.

(** ** The unfiltered branch *)

Lemma pushOnce_collected names name u :
  collected names u →
  collected (names ++ [name]) (pushOnce name u)
  ∧ edges (out (pushOnce name u)) = edges (out u).
Proof.
  intros [Hk Hm]. unfold collected, pushOnce, JS.truthy_at.
  rewrite Hm, vertex_keys_snoc.
  destruct (decide (name ∈ vertex_keys names)) as [Hin|Hin]; simpl.
  - apply elem_of_vertex_keys in Hin as [Hin _].
    rewrite decide_True by by left. done.
  - destruct (decide (name ∈ JS.Object_prototype_keys)) as [Hp|Hp].
    + rewrite bool_decide_eq_true_2 by done. simpl.
      rewrite decide_True by by right. done.
    + rewrite bool_decide_eq_false_2 by done. simpl.
      assert (Hn : name ∉ names).
      { intros ?. apply Hin, elem_of_vertex_keys. done. }
      rewrite decide_False by naive_solver.
      split; [|done]. split; simpl.
      * by rewrite fmap_app, Hk.
      * intros k. rewrite lookup_insert, Hm.
        destruct (decide (name = k)) as [<-|Hne].
        -- rewrite decide_True; [done|].
           apply elem_of_app. right. by apply list_elem_of_singleton.
        -- destruct (decide (k ∈ vertex_keys names)) as [Hk'|Hk'].
           ++ rewrite decide_True; [done|]. apply elem_of_app. by left.
           ++ rewrite decide_False; [done|].
              rewrite elem_of_app, list_elem_of_singleton. naive_solver.
Qed.

Lemma collect_named names u d :
  named d → collected names u →
  collected (names ++ [parent d; child d]) (collect u d)
  ∧ edges (out (collect u d)) = (edges (out u) ++ [toEdge d])%list.
Proof.
  intros Hd Hu. unfold collect. rewrite (proj2 (collect_guard d) Hd). simpl.
  destruct (pushOnce_collected names (parent d) u Hu) as [H1 E1].
  destruct (pushOnce_collected _ (child d) _ H1) as [H2 E2].
  rewrite <- app_assoc in H2. simpl in H2.
  split; [|by rewrite E2, E1].
  destruct H2 as [Hk Hm]. by split.
Qed.

Lemma collect_skipped u d : ¬ named d → collect u d = u.
Proof.
  intros Hd. unfold collect.
  destruct (negb _ && negb _) eqn:E; [|done].
  by apply collect_guard in E.
Qed.

Lemma fold_collect calls :
  let u := fold_left collect calls
             {| nodeMap := ∅; out := {| nodes := []; edges := [] |} |} in
  collected (endpoints (filter named calls)) u
  ∧ edges (out u) = toEdge <$> filter named calls.
Proof.
  induction calls as [|d calls IH] using rev_ind; simpl.
  - split; [|done]. split; [done|]. intros k. simpl.
    by rewrite lookup_empty.
  - rewrite fold_left_app. simpl. simpl in IH. destruct IH as [IH1 IH2].
    rewrite filter_app, filter_cons, filter_nil.
    destruct (decide (named d)) as [Hd|Hd].
    + destruct (collect_named _ _ d Hd IH1) as [H1 H2].
      unfold endpoints. rewrite bind_app, fmap_app. split; [|by rewrite H2, IH2].
      simpl. done.
    + rewrite collect_skipped by done. by rewrite !app_nil_r.
Qed.

Lemma unfiltered_edges calls :
  edges (unfiltered calls) = toEdge <$> filter named calls.
Proof. apply fold_collect. Qed.

Lemma unfiltered_keys calls :
  key <$> nodes (unfiltered calls)
  = vertex_keys (endpoints (filter named calls)).
Proof. apply fold_collect. Qed.

Lemma endpoints_named calls k :
  k ∈ endpoints (filter named calls) → ¬ blank k.
Proof.
  unfold endpoints. intros (call & Hk & Hc)%list_elem_of_bind.
  apply list_elem_of_filter in Hc as [[Hp Hch] _].
  apply elem_of_cons in Hk as [->|Hk]; [done|].
  by apply list_elem_of_singleton in Hk as ->.
Qed.

Lemma keys_of_vertices (ns : list string) :
  key <$> ((λ k, {| key := k |}) <$> ns) = ns.
Proof. induction ns as [|k ns IH]; [done|]. rewrite !fmap_cons. by f_equal. Qed.

(** ** The claims on [formatServiceCalls] *)

(** C6. Without a focal service ([null] or the empty string),
    [formatServiceCalls] emits one edge per call whose two names are both
    non-blank and none for the other calls; its vertex keys are the first
    occurrences, in input order, of the names of these calls (names that
    [nodeMap] inherits as properties apart); no vertex key is empty or
    blank; no key occurs twice; and the input with the single call
    a -> "" (2) gives no node and no edge. *)
Theorem formatServiceCalls_unfiltered calls selectedDepth :
  formatServiceCalls calls None selectedDepth = Some (unfiltered calls)
  ∧ formatServiceCalls calls (Some "") selectedDepth = Some (unfiltered calls)
  ∧ edges (unfiltered calls) = toEdge <$> filter named calls
  ∧ key <$> nodes (unfiltered calls)
    = filter (λ k, k ∉ JS.Object_prototype_keys)
        (first_occurrences (endpoints (filter named calls)))
  ∧ (∀ v, v ∈ nodes (unfiltered calls) → key v ≠ "" ∧ ¬ blank (key v))
  ∧ NoDup (key <$> nodes (unfiltered calls))
  ∧ formatServiceCalls [ {| parent := "a"; child := ""; callCount := 2 |} ]
      None selectedDepth
    = Some {| nodes := []; edges := [] |}.
Proof.
  split; [done|]. split; [done|].
  split; [apply unfiltered_edges|].
  split; [apply unfiltered_keys|].
  split; [|split; [|done]].
  - intros v Hv.
    assert (Hk : key v ∈ key <$> nodes (unfiltered calls)).
    { apply list_elem_of_fmap. eauto. }
    rewrite unfiltered_keys in Hk.
    apply elem_of_vertex_keys in Hk as [Hk _].
    apply endpoints_named in Hk. split; [|done].
    intros E. apply Hk. rewrite E. apply blank_empty.
  - rewrite unfiltered_keys. apply NoDup_vertex_keys.
Qed.

Lemma parseDecimal_toString n :
  JS.parseDecimal (JS.Number_toString n) = Some n.
Proof.
  unfold JS.parseDecimal, JS.Number_toString.
  rewrite NilZero.isi.
  - simpl. by rewrite DecimalZ.of_to.
  - destruct n as [|p|p]; simpl; [done| |done].
    intros [= H]. pose proof (DecimalPos.Unsigned.to_uint_nonnil p). done.
  - destruct n as [|p|p]; simpl; [done|done|].
    intros [= H]. pose proof (DecimalPos.Unsigned.to_uint_nonnil p). done.
Qed.

(** C7. In both modes the vertex keys are pairwise distinct, and every
    output edge comes from an input call: its [from] is the call's parent,
    its [to] the call's child and, the call count being a safe integer,
    its [label] is the decimal numeral of the call count: the string of
    its digits, which reads back as the call count. *)
Theorem formatServiceCalls_sound calls selectedService selectedDepth :
  ∃ data,
    formatServiceCalls calls selectedService selectedDepth = Some data
    ∧ NoDup (key <$> nodes data)
    ∧ ∀ e, e ∈ edges data →
        ∃ call, call ∈ calls
                ∧ from e = parent call ∧ to e = child call
                ∧ (JS.isSafeInteger (callCount call) = true →
                   label e = JS.Number_toString (callCount call)
                   ∧ JS.parseDecimal (label e) = Some (callCount call)).
Proof.
  assert (Hedge : ∀ call, call ∈ calls →
            ∃ call', call' ∈ calls
                     ∧ from (toEdge call) = parent call'
                     ∧ to (toEdge call) = child call'
                     ∧ (JS.isSafeInteger (callCount call') = true →
                        label (toEdge call) = JS.Number_toString (callCount call')
                        ∧ JS.parseDecimal (label (toEdge call))
                          = Some (callCount call'))).
  { intros call Hc. exists call. split; [done|]. split; [done|]. split; [done|].
    intros _. split; [done|]. apply parseDecimal_toString. }
  unfold formatServiceCalls.
  assert (Hall : ∃ data, Some (unfiltered calls) = Some data
            ∧ NoDup (key <$> nodes data)
            ∧ ∀ e, e ∈ edges data →
                ∃ call, call ∈ calls
                        ∧ from e = parent call ∧ to e = child call
                        ∧ (JS.isSafeInteger (callCount call) = true →
                           label e = JS.Number_toString (callCount call)
                           ∧ JS.parseDecimal (label e) = Some (callCount call))).
  { exists (unfiltered calls). split; [done|]. split.
    - rewrite unfiltered_keys. apply NoDup_vertex_keys.
    - intros e He. rewrite unfiltered_edges in He.
      apply list_elem_of_fmap in He as (call & -> & Hc).
      apply list_elem_of_filter in Hc as [_ Hc]. by apply Hedge. }
  destruct selectedService as [focal|]; [|done].
  destruct (String.eqb focal ""); [done|].
  destruct (findConnectedServices_invariant calls focal selectedDepth)
    as (r & Hr & Hg & _).
  rewrite Hr. simpl. eexists. split; [done|]. simpl. split.
  - rewrite keys_of_vertices. by eapply grown_NoDup.
  - intros e (call & -> & Hc)%list_elem_of_fmap.
    destruct (grown_edges _ _ _ _ Hg call Hc) as [? _]. by apply Hedge.
Qed.

Lemma formatServiceCalls_sound_witness :
  ∃ data,
    formatServiceCalls abc_calls (Some "b") 1 = Some data
    ∧ ∀ e, e ∈ edges data →
        ∃ call, call ∈ abc_calls
                ∧ label e = JS.Number_toString (callCount call)
                ∧ JS.parseDecimal (label e) = Some (callCount call).
Proof.
  destruct (formatServiceCalls_sound abc_calls (Some "b") 1)
    as (data & Hd & _ & He).
  exists data. split; [exact Hd|].
  intros e Hin. destruct (He e Hin) as (call & Hc & _ & _ & Hl).
  exists call. split; [exact Hc|]. apply Hl. clear Hl.
  revert call Hc. apply Forall_forall. by apply (bool_decide_unpack _).
Defined.

(** ** Substring search and letter case *)

Lemma prefix_spec t s : String.prefix t s = true ↔ ∃ after, s = t ++ after.
Proof.
  revert s. induction t as [|a t IH]; intros s.
  - destruct s; simpl; split; eauto.
  - destruct s as [|b s]; simpl.
    + split; [done|]. by intros [after ?].
    + destruct (ascii_dec a b) as [->|Hne].
      * rewrite IH. split.
        -- intros [after ->]. by exists after.
        -- intros [after [= ->]]. by exists after.
      * split; [done|]. intros [after [= Hab _]]. by destruct Hne.
Qed.

Lemma includes_spec s t :
  JS.includes s t = true ↔ ∃ before after, s = before ++ t ++ after.
Proof.
  induction s as [|c s IH].
  - change (JS.includes "" t) with (if String.prefix t "" then true else false).
    destruct (String.prefix t "") eqn:E.
    + split; [intros _|done]. apply prefix_spec in E as [after E]. by exists "", after.
    + split; [done|]. intros (before & after & H).
      destruct before; [|done]. simpl in H.
      assert (String.prefix t "" = true) by (apply prefix_spec; eauto). congruence.
  - change (JS.includes (String c s) t)
      with (if String.prefix t (String c s) then true else JS.includes s t).
    destruct (String.prefix t (String c s)) eqn:E.
    + split; [intros _|done]. apply prefix_spec in E as [after E]. by exists "", after.
    + rewrite IH. split.
      * intros (before & after & ->). by exists (String c before), after.
      * intros (before & after & H). destruct before as [|c' before].
        -- simpl in H.
           assert (String.prefix t (String c s) = true)
             by (apply prefix_spec; eauto).
           congruence.
        -- simpl in H. injection H as _ ->. eauto.
Qed.

Lemma toLowerCase_app a b :
  JS.toLowerCase (a ++ b) = JS.toLowerCase a ++ JS.toLowerCase b.
Proof. induction a as [|c a IH]; simpl; [done|]. by rewrite IH. Qed.

Lemma toLowerCase_split k x y :
  JS.toLowerCase k = x ++ y →
  ∃ a b, k = a ++ b ∧ JS.toLowerCase a = x ∧ JS.toLowerCase b = y.
Proof.
  revert k. induction x as [|c x IH]; intros k H; simpl in H.
  - by exists "", k.
  - destruct k as [|c' k]; [done|]. simpl in H. injection H as Hc H.
    destruct (IH k H) as (a & b & -> & <- & <-).
    exists (String c' a), b. simpl. by rewrite Hc.
Qed.

(** The test of the code, lower-casing both sides and searching, decides
    whether the query occurs up to letter case. *)
Lemma includes_lower_spec q k :
  JS.includes (JS.toLowerCase k) (JS.toLowerCase q) = true
  ↔ occurs_ignoring_case q k.
Proof.
  rewrite includes_spec. unfold occurs_ignoring_case. split.
  - intros (x & y & H).
    apply toLowerCase_split in H as (before & rest & -> & <- & H).
    apply toLowerCase_split in H as (w & after & -> & H & <-).
    by exists before, w, after.
  - intros (before & w & after & -> & H).
    exists (JS.toLowerCase before), (JS.toLowerCase after).
    by rewrite !toLowerCase_app, H.
Qed.

Lemma count_where_filter {A} (f : A → bool) (P : A → Prop) (l : list A) :
  (∀ x, f x = true ↔ P x) → count_where P l (length (List.filter f l)).
Proof.
  intros Hf. induction l as [|a l IH]; simpl; [constructor|].
  destruct (f a) eqn:E; simpl.
  - apply count_yes; [by apply Hf|done].
  - apply count_no; [|done]. rewrite <- Hf. congruence.
Qed.

Lemma formatServiceCalls_returns calls selectedService selectedDepth :
  ∃ data, formatServiceCalls calls selectedService selectedDepth = Some data.
Proof.
  unfold formatServiceCalls.
  destruct selectedService as [focal|]; [|eauto].
  destruct (String.eqb focal ""); [eauto|].
  destruct (findConnectedServices_returns calls focal selectedDepth)
    as (t & _ & _ & ->).
  simpl. eauto.
Qed.

(** ** The claims on the [DAG] component *)

(** C9. The component shows the error panel exactly when the number of
    formatted nodes exceeds [DAG_MAX_NUM_SERVICES], and the Digraph with
    the formatted edges and vertices otherwise; the text of the panel
    carries that number after "Too many services to render (". *)
Theorem DAG_node_ceiling (DAG_MAX_NUM_SERVICES : Z) (props : TProps) :
  ∃ data shown,
    formatServiceCalls (serviceCalls props) (Some (selectedService props))
      (selectedDepth props) = Some data
    ∧ DAG DAG_MAX_NUM_SERVICES props = Some shown
    ∧ ((∃ text, shown = ErrorPanel text)
       ↔ (Z.of_nat (length (nodes data)) > DAG_MAX_NUM_SERVICES)%Z)
    ∧ (∀ text, shown = ErrorPanel text →
         text = "Too many services to render ("
                ++ JS.Number_toString (Z.of_nat (length (nodes data)))
                ++ "). Hierarchical layout is disabled. For the Force-Directed layout, please select a focal service and the depth.")
    ∧ ((Z.of_nat (length (nodes data)) ≤ DAG_MAX_NUM_SERVICES)%Z →
         ∃ k, shown = Digraph k (edges data) (nodes data)).
Proof.
  destruct (formatServiceCalls_returns (serviceCalls props)
              (Some (selectedService props)) (selectedDepth props))
    as (data & Hdata).
  exists data, (render DAG_MAX_NUM_SERVICES props data).
  split; [done|]. split; [unfold DAG; by rewrite Hdata|].
  unfold render, forceFocalServiceSelection.
  destruct (Z.of_nat (length (nodes data)) >? DAG_MAX_NUM_SERVICES) eqn:E.
  - apply Z.gtb_gt in E. split; [split; [lia|eauto]|].
    split; [by intros text [= <-]|lia].
  - rewrite Z.gtb_ltb in E. apply Z.ltb_ge in E. split.
    + split; [by intros [text ?]|lia].
    + split; [done|eauto].
Qed.

Lemma lowerCaseUnitAt_ascii previous c next :
  Wide.supported (N_of_ascii c) = true →
  Wide.lowerCaseUnitAt previous (N_of_ascii c) next
  = N_of_ascii (JS.lowerCaseUnit c).
Proof.
  destruct c as [[] [] [] [] [] [] [] []]; try reflexivity; discriminate.
Qed.

(** On the Latin-1 part of its repertoire the wide lower-casing is the
    unit-by-unit one. *)
Lemma toLowerCase_units s :
  forallb Wide.supported (Wide.units s) = true →
  Wide.toLowerCase (Wide.units s) = Some (Wide.units (JS.toLowerCase s)).
Proof.
  intros Hs. unfold Wide.toLowerCase. rewrite Hs. f_equal.
  generalize (@None N) as previous. revert Hs.
  induction s as [|c s IH]; intros Hs previous; [done|].
  change (Wide.units (String c s)) with (N_of_ascii c :: Wide.units s) in *.
  change (JS.toLowerCase (String c s))
    with (String (JS.lowerCaseUnit c) (JS.toLowerCase s)).
  change (Wide.units (String ?a ?t)) with (N_of_ascii a :: Wide.units t).
  cbn [forallb] in Hs. apply andb_true_iff in Hs as [Hc Hs].
  cbn [Wide.lowerCaseFrom].
  rewrite lowerCaseUnitAt_ascii by done. f_equal. by apply IH.
Qed.

Example wide_example :
  Wide.matchCount [Wide.units "Foo"; Wide.units "bar"] (Wide.units "fo") = Some 1
  ∧ Wide.toLowerCase [913; 931]%N = Some [945; 962]%N
  ∧ Wide.toLowerCase [931]%N = Some [963]%N
  ∧ Wide.toLowerCase [913; 931; 913]%N = Some [945; 963; 945]%N
  ∧ Wide.toLowerCase [8364]%N = None.
Proof. done. Qed.

(** C10, as stated, fails: the key U+0391 U+03A3 (capital alpha, capital
    sigma) contains the query U+03A3 as it stands, but its lower-case form
    ends in the final sigma U+03C2 while the lower-case form of the query
    is U+03C3, so the code counts no match. *)
Lemma final_sigma_not_counted :
  ¬ (∀ keys q n, q ≠ [] →
       Wide.matchCount keys q = Some (Z.of_nat n) →
       count_where (Wide.occurs_ignoring_case q) keys n).
Proof.
  intros H.
  specialize (H [[913; 931]%N] [931%N] 0%nat).
  assert (Hcount : count_where (Wide.occurs_ignoring_case [931%N])
                     [[913; 931]%N] 0) by (apply H; done).
  inversion Hcount as [| |k l n Hno _]; subst.
  apply Hno. by exists [913%N], [931%N], [], [963%N].
Qed.

(** C10, amended. For keys and queries made of code units below U+0100:
    with a callback and a non-empty query, the effect reports the number
    of nodes whose key contains the query up to letter case; with an
    empty or absent query it reports zero; without a callback it reports
    nothing; for the keys Foo and bar and the query fo it reports 1. *)
Theorem matchCountEffect_reports dataNodes q :
  q ≠ "" →
  (∃ n, matchCountEffect dataNodes (Some q) true = Some (Z.of_nat n)
        ∧ count_where (λ node, occurs_ignoring_case q (key node)) dataNodes n)
  ∧ matchCountEffect dataNodes (Some "") true = Some 0
  ∧ matchCountEffect dataNodes None true = Some 0
  ∧ (∀ uiFind, matchCountEffect dataNodes uiFind false = None)
  ∧ matchCountEffect [ {| key := "Foo" |}; {| key := "bar" |} ] (Some "fo") true
    = Some 1.
Proof.
  intros Hq. split; [|split; [done|split; [done|split; [|done]]]].
  - eexists. split.
    + unfold matchCountEffect.
      rewrite (proj2 (String.eqb_neq q "") Hq). simpl. reflexivity.
    + apply count_where_filter. intros node. apply includes_lower_spec.
  - intros [q'|]; [|done]. unfold matchCountEffect.
    by rewrite andb_false_r.
Qed.

Lemma matchCountEffect_reports_witness :
  ∃ n, matchCountEffect [ {| key := "Foo" |}; {| key := "bar" |} ] (Some "fo") true
       = Some (Z.of_nat n)
       ∧ count_where (λ node, occurs_ignoring_case "fo" (key node))
           [ {| key := "Foo" |}; {| key := "bar" |} ] n.
Proof.
  apply (matchCountEffect_reports [ {| key := "Foo" |}; {| key := "bar" |} ] "fo").
  discriminate.
Defined.


(** ** Breadth-first order: nothing within the depth limit is missed *)

Lemma discover_nodes d call y t x :
  x ∈ nodes (found t) → x ∈ nodes (found (discover d call y t)).
Proof.
  intros Hx. unfold discover, StringSet.add. simpl.
  destruct (StringSet.has _ _); [done|]. apply elem_of_app. by left.
Qed.

Lemma visit_nodes s d t call x :
  x ∈ nodes (found t) → x ∈ nodes (found (visit s d t call)).
Proof.
  intros Hx.
  apply (visit_invariant (λ u, x ∈ nodes (found u))); [|done].
  intros u y Hu _ _. by apply discover_nodes.
Qed.

(** After the scan of [call], whatever it joins to the current service is
    visited. *)
Lemma visit_reaches s d t call y :
  links call s y → y ∈ nodes (found (visit s d t call)).
Proof.
  assert (Hadd : ∀ u, y ∈ nodes (found (discover d call y u))).
  { intros u. unfold discover, StringSet.add. simpl.
    destruct (StringSet.has _ _) eqn:E; [by apply has_true|].
    apply elem_of_app. right. by apply list_elem_of_singleton. }
  intros [[Hp Hc]|[Hc Hp]]; unfold visit; cbv zeta.
  - rewrite (proj2 (String.eqb_eq _ _) Hp). simpl.
    set (t1 := if negb _ then _ else t).
    assert (Ht1 : y ∈ nodes (found t1)).
    { subst t1. destruct (StringSet.has _ _) eqn:E; simpl.
      - apply has_true in E. by rewrite <- Hc.
      - rewrite Hc. apply Hadd. }
    destruct (_ && _); [by apply discover_nodes|done].
  - set (t1 := if _ && _ then _ else t).
    rewrite (proj2 (String.eqb_eq _ _) Hc). simpl.
    destruct (StringSet.has (nodes (found t1)) (parent call)) eqn:E; simpl.
    + apply has_true in E. by rewrite <- Hp.
    + rewrite Hp. apply Hadd.
Qed.

Lemma expand_nodes s d l t x :
  x ∈ nodes (found t) → x ∈ nodes (found (fold_left (visit s d) l t)).
Proof.
  revert t. induction l as [|c l IH]; intros t Hx; simpl; [done|].
  by apply IH, visit_nodes.
Qed.

(** After the scan of the whole edge list, every service next to the
    current one is visited. *)
Lemma expand_reaches s d l t call y :
  call ∈ l → links call s y →
  y ∈ nodes (found (fold_left (visit s d) l t)).
Proof.
  revert t. induction l as [|c l IH]; intros t Hin Hl; simpl.
  - by apply elem_of_nil in Hin.
  - apply elem_of_cons in Hin as [->|Hin]; [|by apply IH].
    by apply expand_nodes, visit_reaches.
Qed.

Lemma breadth_first_initial calls s maxDepth :
  breadth_first calls s maxDepth [] (initial s).
Proof.
  split; simpl.
  - done.
  - eexists. split; [by left|done].
  - exists 0, [{| service := s; depth := 0 |}], []. simpl.
    split; [done|]. split; [by intros e ->%list_elem_of_singleton|].
    split; intros e He; by apply elem_of_nil in He.
  - intros e He. by apply elem_of_nil in He.
  - intros e ->%list_elem_of_singleton. exists 0%nat. simpl.
    split; [done|]. split; [lia|constructor].
  - intros i j e1 e2 _ He1. by rewrite lookup_nil in He1.
  - intros [|i] e He; [|done]. injection He as <-. simpl. lia.
Qed.

Lemma scanning_discover calls s maxDepth past e call y t :
  depth e < maxDepth → call ∈ calls → links call (service e) y →
  scanning calls s maxDepth past e t → y ∉ nodes (found t) →
  scanning calls s maxDepth past e (discover (depth e) call y t).
Proof.
  intros Hlt Hcall Hl [Hn Hs Hw Hc Hh Hso Hix] Hy. unfold discover.
  split; simpl.
  - rewrite add_fresh by done.
    rewrite app_assoc, fmap_app, Hn. done.
  - destruct Hs as (e' & He' & ? & ?). exists e'. split; [|done].
    rewrite app_assoc. apply elem_of_app. by left.
  - destruct Hw as (A & B & HQ & HA & HB & HP). simpl.
    exists A, (B ++ [{| service := y; depth := depth e + 1 |}])%list.
    split; [by rewrite HQ, app_assoc|]. split; [done|]. split; [|done].
    intros e' [He'| ->%list_elem_of_singleton]%elem_of_app; [by apply HB|done].
  - intros e1 He1 Hd call' y' Hc' Hl'.
    destruct (Hc e1 He1 Hd call' y' Hc' Hl') as (e' & He' & ? & ?).
    exists e'. split; [|done].
    rewrite app_assoc. apply elem_of_app. by left.
  - rewrite app_assoc.
    intros e' [He'| ->%list_elem_of_singleton]%elem_of_app; [by apply Hh|].
    destruct (Hh e) as (n & Hn' & ? & ?).
    { apply elem_of_app. left. apply elem_of_app. right. by left. }
    exists (S n). simpl. split; [lia|]. split; [lia|].
    econstructor; eauto.
  - done.
  - rewrite app_assoc. intros i e' [[_ He']|[-> <-]]%lookup_snoc_Some.
    + by apply Hix.
    + simpl. specialize (Hix (length past) e).
      rewrite <- app_assoc, lookup_app_r, Nat.sub_diag in Hix by lia.
      specialize (Hix eq_refl). rewrite !length_app. simpl. lia.
Qed.

(** Every entry ever queued while [e] is expanded lies at most one level
    below [e]. *)
Lemma window_depth h past t e' :
  window h past t → e' ∈ (past ++ queue t)%list → (depth e' ≤ h + 1)%Z.
Proof.
  intros (A & B & HQ & HA & HB & HP). rewrite HQ.
  intros [He'|[He'|He']%elem_of_app]%elem_of_app.
  - specialize (HP e' He'). lia.
  - specialize (HA e' He'). lia.
  - specialize (HB e' He'). lia.
Qed.

Lemma breadth_first_iteration calls s maxDepth past t e rest :
  queue t = e :: rest →
  breadth_first calls s maxDepth past t →
  breadth_first calls s maxDepth (past ++ [e])
    (iteration calls maxDepth e rest t).
Proof.
  intros Q [Hn Hs Hw Hc Hh Hso Hix]. unfold iteration.
  set (t' := {| found := found t; queue := rest |}).
  assert (Hpast : ∀ e', e' ∈ past → (depth e' ≤ depth e)%Z).
  { destruct Hw as (h & A & B & HQ & HA & HB & HP). rewrite Q in HQ.
    intros e' He'. specialize (HP e' He').
    destruct A as [|a A]; simpl in HQ.
    - assert (depth e = h + 1) by (apply HB; rewrite <- HQ; by left). lia.
    - injection HQ as <- ->.
      assert (depth e = h) by (apply HA; by left). lia. }
  assert (Hsc : scanning calls s maxDepth past e t').
  { split; simpl.
    - by rewrite <- Hn, Q, <- app_assoc.
    - rewrite Q in Hs. by rewrite <- app_assoc.
    - destruct Hw as (h & A & B & HQ & HA & HB & HP). rewrite Q in HQ.
      destruct A as [|a A]; simpl in HQ.
      + exists rest, []. simpl. rewrite app_nil_r.
        assert (He : depth e = h + 1) by (apply HB; rewrite <- HQ; by left).
        split; [done|]. split.
        * intros e' He'. rewrite He. apply HB. rewrite <- HQ. by right.
        * split; [intros e' He'; by apply elem_of_nil in He'|].
          intros e' [He'| ->%list_elem_of_singleton]%elem_of_app; [|lia].
          specialize (HP e' He'). lia.
      + injection HQ as <- ->.
        assert (He : depth e = h) by (apply HA; by left).
        exists A, B. simpl. split; [done|]. split.
        * intros e' He'. rewrite He. apply HA. by right.
        * split; [intros e' He'; rewrite He; by apply HB|].
          intros e' [He'| ->%list_elem_of_singleton]%elem_of_app; [|lia].
          specialize (HP e' He'). lia.
    - rewrite Q in Hc. by rewrite <- app_assoc.
    - rewrite Q in Hh. by rewrite <- app_assoc.
    - intros i j e1 e2 Hij H1 H2.
      apply lookup_snoc_Some in H2 as [[Hj H2]|[-> ->]].
      + rewrite lookup_app_l in H1 by lia. eauto.
      + apply lookup_snoc_Some in H1 as [[_ H1]|[_ ->]]; [|lia].
        apply Hpast. by eapply list_elem_of_lookup_2.
    - rewrite Q in Hix. by rewrite <- app_assoc. }
  assert (Hfin : ∀ u, scanning calls s maxDepth past e u →
            closed calls maxDepth [e] ((past ++ [e]) ++ queue u)%list →
            breadth_first calls s maxDepth (past ++ [e]) u).
  { intros u [Hn' Hs' Hw' Hc' Hh' Hso' Hix'] He.
    split; [done|done|by eexists| |done|done|done].
    intros e1 [He1| ->%list_elem_of_singleton]%elem_of_app.
    - by apply Hc'.
    - apply He. by left. }
  destruct (depth e >=? maxDepth) eqn:Hd.
  - apply Hfin; [done|].
    intros e1 ->%list_elem_of_singleton Hlt.
    rewrite Z.geb_leb in Hd. apply Z.leb_le in Hd. lia.
  - set (u := fold_left (visit (service e) (depth e)) calls t').
    rewrite Z.geb_leb in Hd. apply Z.leb_gt in Hd.
    assert (Hu : scanning calls s maxDepth past e u).
    { subst u. apply fold_left_invariant; [|done].
      intros u call Hcall Hu. apply visit_invariant; [|done].
      intros u' y Hu' Hl Hy. by apply scanning_discover. }
    apply Hfin; [done|].
    intros e1 ->%list_elem_of_singleton _ call y Hcall Hl.
    assert (Hy : y ∈ nodes (found u)) by by eapply expand_reaches.
    rewrite <- (sc_nodes _ _ _ _ _ _ Hu) in Hy.
    apply list_elem_of_fmap in Hy as (e' & -> & He').
    exists e'. split; [done|]. split; [done|].
    eapply window_depth; [apply (sc_window _ _ _ _ _ _ Hu)|done].
Qed.

(** When the loop has ended, whatever lies within the depth limit has an
    entry, queued no deeper than its distance. *)
Lemma breadth_first_complete calls s maxDepth past t :
  breadth_first calls s maxDepth past t → queue t = [] →
  ∀ k y, hops calls s k y → (Z.of_nat k ≤ Z.max 0 maxDepth)%Z →
    ∃ e, e ∈ past ∧ service e = y ∧ (depth e ≤ Z.of_nat k)%Z.
Proof.
  intros [Hn Hs Hw Hc _ _ _] Q. rewrite Q, app_nil_r in Hs, Hc.
  induction 1 as [|k x call y Hx IH Hcall Hl]; intros Hk.
  - destruct Hs as (e & ? & ? & ?). exists e. split; [done|]. split; [done|lia].
  - destruct IH as (e & He & <- & Hd); [lia|].
    destruct (Hc e He) with (call := call) (y := y) as (e' & ? & ? & ?);
      [lia|done|done|].
    exists e'. split; [done|]. split; [done|lia].
Qed.

(** The function returns with the breadth-first discipline kept to the
    end. *)
Lemma findConnectedServices_breadth_first calls s maxDepth :
  ∃ past t,
    findConnectedServices calls s maxDepth = Some (found t)
    ∧ queue t = []
    ∧ breadth_first calls s maxDepth past t.
Proof.
  destruct (findConnectedServices_returns calls s maxDepth)
    as (t & Hrun & _ & Hres).
  destruct (while_queue_invariant
              (λ u, ∃ past, breadth_first calls s maxDepth past u)
              calls maxDepth) with (turns := turns_bound calls)
              (t := initial s) (t' := t) as [[past Hbf] Q].
  - intros u e rest Q [past Hbf]. exists (past ++ [e])%list.
    by apply breadth_first_iteration.
  - exists []. apply breadth_first_initial.
  - done.
  - by exists past, t.
Qed.

(** The returned nodes are the services within the depth limit, no more
    and no less; they come with the tree-shaped growth of the claims. *)
Lemma findConnectedServices_nodes calls s maxDepth :
  ∃ r, findConnectedServices calls s maxDepth = Some r
       ∧ grown calls s (nodes r) (edges r)
       ∧ ∀ x, x ∈ nodes r
              ↔ ∃ n, (n ≤ Z.to_nat maxDepth)%nat ∧ hops calls s n x.
Proof.
  destruct (findConnectedServices_invariant calls s maxDepth)
    as (r & Hr & Hg & Hnear).
  destruct (findConnectedServices_breadth_first calls s maxDepth)
    as (past & t & Ht & Q & Hbf).
  assert (r = found t) as -> by congruence.
  exists (found t). split; [done|]. split; [done|].
  intros x. split.
  - intros Hx. destruct (Hnear x Hx) as (n & ? & Hh). exists n. split; [done|].
    eapply hops_mono; [|exact Hh]. intros call Hc.
    by destruct (grown_edges _ _ _ _ Hg call Hc).
  - intros (n & Hn & Hh).
    destruct (breadth_first_complete _ _ _ _ _ Hbf Q n x Hh) as (e & He & <- & _);
      [lia|].
    rewrite <- (bf_nodes _ _ _ _ _ Hbf), Q, app_nil_r.
    by apply list_elem_of_fmap_2.
Qed.

Lemma findConnectedServices_count calls s maxDepth r :
  findConnectedServices calls s maxDepth = Some r →
  length (nodes r) = reachable_count calls s (Z.to_nat maxDepth).
Proof.
  intros Hr.
  destruct (findConnectedServices_nodes calls s maxDepth) as (r' & Hr' & Hg & Hx).
  assert (r' = r) as -> by congruence.
  unfold reachable_count. apply Permutation_length, NoDup_Permutation.
  - by eapply grown_NoDup.
  - apply NoDup_remove_dups.
  - intros x. by rewrite elem_of_remove_dups, ball_spec, Hx.
Qed.

(** ** Further properties of [findConnectedServices] *)

(** X1. The returned node set is exactly the set of services within
    [maxDepth] hops of the start along input edges taken in either
    direction (0 hops when [maxDepth] is negative), and its size is the
    number of these services. *)
Theorem findConnectedServices_exact calls s maxDepth :
  ∃ r, findConnectedServices calls s maxDepth = Some r
       ∧ (∀ x, x ∈ nodes r
               ↔ ∃ n, (n ≤ Z.to_nat maxDepth)%nat ∧ hops calls s n x)
       ∧ length (nodes r) = reachable_count calls s (Z.to_nat maxDepth).
Proof.
  destruct (findConnectedServices_nodes calls s maxDepth) as (r & Hr & Hg & Hx).
  exists r. split; [done|]. split; [done|].
  by apply findConnectedServices_count.
Qed.

(** X2. A larger depth never loses a node: the nodes returned for
    [maxDepth] are among those returned for any [maxDepth' ≥ maxDepth]. *)
Theorem findConnectedServices_depth_monotone calls s maxDepth maxDepth' :
  (maxDepth ≤ maxDepth')%Z →
  ∃ r r', findConnectedServices calls s maxDepth = Some r
          ∧ findConnectedServices calls s maxDepth' = Some r'
          ∧ ∀ x, x ∈ nodes r → x ∈ nodes r'.
Proof.
  intros Hle.
  destruct (findConnectedServices_nodes calls s maxDepth) as (r & Hr & _ & Hx).
  destruct (findConnectedServices_nodes calls s maxDepth') as (r' & Hr' & _ & Hx').
  exists r, r'. split; [done|]. split; [done|].
  intros x (n & Hn & Hh)%Hx. apply Hx'. exists n. split; [lia|done].
Qed.

Lemma findConnectedServices_depth_monotone_witness :
  ∃ r r', findConnectedServices abc_calls "b" 1 = Some r
          ∧ findConnectedServices abc_calls "b" 2 = Some r'
          ∧ ∀ x, x ∈ nodes r → x ∈ nodes r'.
Proof. apply (findConnectedServices_depth_monotone abc_calls "b" 1 2). lia. Defined.

(** X3. The returned node set depends on the input edges as a set only:
    two edge lists with the same members (in any order, with any
    repetitions) give the same nodes up to order. *)
Theorem findConnectedServices_order_irrelevant calls calls' s maxDepth :
  (∀ call, call ∈ calls ↔ call ∈ calls') →
  ∃ r r', findConnectedServices calls s maxDepth = Some r
          ∧ findConnectedServices calls' s maxDepth = Some r'
          ∧ nodes r ≡ₚ nodes r'.
Proof.
  intros Hsame.
  destruct (findConnectedServices_nodes calls s maxDepth) as (r & Hr & Hg & Hx).
  destruct (findConnectedServices_nodes calls' s maxDepth) as (r' & Hr' & Hg' & Hx').
  exists r, r'. split; [done|]. split; [done|].
  apply NoDup_Permutation; [by eapply grown_NoDup..|].
  intros x. rewrite Hx, Hx'.
  split; intros (n & ? & Hh); exists n; (split; [done|]);
    (eapply hops_mono; [|exact Hh]); intros call; apply Hsame.
Qed.

Lemma findConnectedServices_order_irrelevant_witness :
  ∃ r r', findConnectedServices abc_calls "b" 2 = Some r
          ∧ findConnectedServices (reverse abc_calls ++ abc_calls) "b" 2 = Some r'
          ∧ nodes r ≡ₚ nodes r'.
Proof.
  apply (findConnectedServices_order_irrelevant
           abc_calls (reverse abc_calls ++ abc_calls) "b" 2).
  intros call. rewrite elem_of_app, elem_of_reverse. tauto.
Defined.

Lemma hops_isolated calls s n x :
  (∀ call, call ∈ calls → parent call ≠ s ∧ child call ≠ s) →
  hops calls s n x → x = s.
Proof.
  intros Hiso. induction 1 as [|n x call y _ IH Hc Hl]; [done|].
  subst x. destruct (Hiso call Hc) as [? ?].
  by destruct Hl as [[? _]|[? _]].
Qed.

(** X4. A start service that no input edge mentions is returned alone,
    with no edge, whatever the depth. *)
Theorem findConnectedServices_isolated calls s maxDepth :
  (∀ call, call ∈ calls → parent call ≠ s ∧ child call ≠ s) →
  findConnectedServices calls s maxDepth
  = Some {| nodes := [s]; edges := [] |}.
Proof.
  intros Hiso.
  destruct (findConnectedServices_nodes calls s maxDepth)
    as ([ns es] & Hr & Hg & Hx).
  rewrite Hr. simpl in *.
  pose proof (grown_first _ _ _ _ Hg) as H0.
  pose proof (grown_NoDup _ _ _ _ Hg) as Hnd.
  pose proof (grown_length _ _ _ _ Hg) as Hlen.
  destruct ns as [|a [|b ns]]; [done| |].
  - injection H0 as ->. destruct es; [done|]. simpl in Hlen. lia.
  - injection H0 as ->. exfalso.
    assert (b = s) as ->.
    { destruct (proj1 (Hx b)) as (n & _ & Hh); [by right; left|].
      by eapply hops_isolated. }
    apply NoDup_cons in Hnd as [Hnd _]. apply Hnd. by left.
Qed.

Lemma findConnectedServices_isolated_witness :
  findConnectedServices abc_calls "z" 5 = Some {| nodes := ["z"]; edges := [] |}.
Proof.
  apply (findConnectedServices_isolated abc_calls "z" 5).
  intros call Hc. unfold abc_calls in Hc.
  repeat (apply elem_of_cons in Hc as [->|Hc]; [by split|]).
  by apply elem_of_nil in Hc.
Defined.

Lemma NoDup_fmap_elem {A B} (f : A → B) (l : list A) x y :
  NoDup (f <$> l) → x ∈ l → y ∈ l → f x = f y → x = y.
Proof.
  induction l as [|a l IH]; intros Hnd Hx Hy Hf.
  - by apply elem_of_nil in Hx.
  - rewrite fmap_cons in Hnd. apply NoDup_cons in Hnd as [Ha Hnd].
    apply elem_of_cons in Hx as [->|Hx]; apply elem_of_cons in Hy as [->|Hy].
    + done.
    + exfalso. apply Ha. rewrite Hf. by apply list_elem_of_fmap_2.
    + exfalso. apply Ha. rewrite <- Hf. by apply list_elem_of_fmap_2.
    + by apply IH.
Qed.

(** When the loop has ended, the depth recorded with a service is its
    distance from the start. *)
Lemma breadth_first_distance calls s maxDepth past t e :
  breadth_first calls s maxDepth past t → queue t = [] →
  NoDup (nodes (found t)) → e ∈ past →
  ∃ n, depth e = Z.of_nat n ∧ distance calls s (service e) n.
Proof.
  intros Hbf Q Hnd He.
  pose proof (bf_nodes _ _ _ _ _ Hbf) as Hn. rewrite Q, app_nil_r in Hn.
  destruct (bf_hops _ _ _ _ _ Hbf e) as (n & Hd & Hmax & Hh).
  { rewrite Q, app_nil_r. done. }
  exists n. split; [done|]. split; [done|].
  intros k Hk.
  destruct (decide (Z.of_nat k ≤ Z.max 0 maxDepth)%Z) as [Hle|Hgt]; [|lia].
  destruct (breadth_first_complete _ _ _ _ _ Hbf Q k _ Hk Hle)
    as (e' & He' & Hs & Hd').
  assert (e' = e) as ->.
  { eapply (NoDup_fmap_elem service past); [by rewrite Hn|done..]. }
  lia.
Qed.

(** X5. The nodes are returned in breadth-first order: a node never comes
    before one that is strictly closer to the start (distance being the
    least number of hops along input edges taken in either direction). *)
Theorem findConnectedServices_by_distance calls s maxDepth :
  ∃ r, findConnectedServices calls s maxDepth = Some r
       ∧ ∀ i j x y, (i ≤ j)%nat →
           nodes r !! i = Some x → nodes r !! j = Some y →
           ∃ n m, distance calls s x n ∧ distance calls s y m ∧ (n ≤ m)%nat.
Proof.
  destruct (findConnectedServices_invariant calls s maxDepth)
    as (r & Hr & Hg & _).
  destruct (findConnectedServices_breadth_first calls s maxDepth)
    as (past & t & Ht & Q & Hbf).
  assert (r = found t) as -> by congruence.
  exists (found t). split; [done|].
  pose proof (grown_NoDup _ _ _ _ Hg) as Hnd.
  pose proof (bf_nodes _ _ _ _ _ Hbf) as Hn. rewrite Q, app_nil_r in Hn.
  intros i j x y Hij Hx Hy. rewrite <- Hn, list_lookup_fmap in Hx, Hy.
  destruct (past !! i) as [e1|] eqn:H1; [|done].
  destruct (past !! j) as [e2|] eqn:H2; [|done].
  injection Hx as <-. injection Hy as <-.
  destruct (breadth_first_distance _ _ _ _ _ e1 Hbf Q Hnd) as (n & Hd1 & ?);
    [by eapply list_elem_of_lookup_2|].
  destruct (breadth_first_distance _ _ _ _ _ e2 Hbf Q Hnd) as (m & Hd2 & ?);
    [by eapply list_elem_of_lookup_2|].
  exists n, m. split; [done|]. split; [done|].
  pose proof (bf_sorted _ _ _ _ _ Hbf i j e1 e2 Hij H1 H2). lia.
Qed.


(** ** Further properties of [formatServiceCalls] *)

Lemma vertex_of_key (vs : list TVertex) k :
  {| key := k |} ∈ vs ↔ k ∈ key <$> vs.
Proof.
  rewrite list_elem_of_fmap. split.
  - intros Hv. by exists {| key := k |}.
  - intros ([k'] & -> & Hv). done.
Qed.

Lemma vertex_of_node (ns : list string) k :
  {| key := k |} ∈ (λ k, {| key := k |}) <$> ns ↔ k ∈ ns.
Proof. by rewrite vertex_of_key, keys_of_vertices. Qed.

(** X6. With a focal service, the vertices are exactly the services within
    [selectedDepth] hops of it, and both ends of every edge are among the
    vertices. *)
Theorem formatServiceCalls_focal calls focal selectedDepth :
  focal ≠ "" →
  ∃ data,
    formatServiceCalls calls (Some focal) selectedDepth = Some data
    ∧ (∀ k, {| key := k |} ∈ nodes data
            ↔ ∃ n, (n ≤ Z.to_nat selectedDepth)%nat ∧ hops calls focal n k)
    ∧ ∀ e, e ∈ edges data →
        {| key := from e |} ∈ nodes data ∧ {| key := to e |} ∈ nodes data.
Proof.
  intros Hf.
  destruct (findConnectedServices_nodes calls focal selectedDepth)
    as (r & Hr & Hg & Hx).
  unfold formatServiceCalls. rewrite (proj2 (String.eqb_neq focal "") Hf), Hr.
  simpl. eexists. split; [done|]. simpl. split.
  - intros k. by rewrite vertex_of_node.
  - intros e (call & -> & Hc)%list_elem_of_fmap. simpl.
    rewrite !vertex_of_node.
    by destruct (grown_edges _ _ _ _ Hg call Hc) as (_ & ? & ?).
Qed.

Lemma formatServiceCalls_focal_witness :
  ∃ data,
    formatServiceCalls abc_calls (Some "b") 1 = Some data
    ∧ (∀ k, {| key := k |} ∈ nodes data
            ↔ ∃ n, (n ≤ Z.to_nat 1)%nat ∧ hops abc_calls "b" n k)
    ∧ ∀ e, e ∈ edges data →
        {| key := from e |} ∈ nodes data ∧ {| key := to e |} ∈ nodes data.
Proof. apply (formatServiceCalls_focal abc_calls "b" 1). discriminate. Defined.

Lemma length_first_occurrences l :
  (length (first_occurrences l) ≤ length l)%nat.
Proof.
  induction l as [|a l IH]; simpl; [done|].
  pose proof (length_filter (λ y, y ≠ a) (first_occurrences l)). lia.
Qed.

Lemma length_endpoints calls :
  length (endpoints calls) = (2 * length calls)%nat.
Proof.
  unfold endpoints. induction calls as [|c l IH]; [done|].
  rewrite bind_cons, length_app, IH. simpl. lia.
Qed.

Lemma elem_of_endpoints calls k :
  k ∈ endpoints calls ↔ ∃ call, call ∈ calls ∧ (k = parent call ∨ k = child call).
Proof.
  unfold endpoints. rewrite list_elem_of_bind. split.
  - intros (call & Hk & Hc). exists call. split; [done|].
    apply elem_of_cons in Hk as [->|Hk]; [by left|].
    apply list_elem_of_singleton in Hk as ->. by right.
  - intros (call & Hc & [->| ->]); exists call; (split; [|done]).
    + by left.
    + right. by left.
Qed.

(** X7. Without a focal service: every vertex is an end of some output
    edge; there are at most twice as many vertices as edges and at most
    as many edges as input calls; and when no name of the input is one of
    the property names that [nodeMap] inherits, both ends of every edge
    are among the vertices. *)
Theorem formatServiceCalls_unfiltered_well_formed calls selectedDepth :
  ∃ data,
    formatServiceCalls calls None selectedDepth = Some data
    ∧ (∀ v, v ∈ nodes data →
         ∃ e, e ∈ edges data ∧ (from e = key v ∨ to e = key v))
    ∧ (length (nodes data) ≤ 2 * length (edges data))%nat
    ∧ (length (edges data) ≤ length calls)%nat
    ∧ ((∀ k, k ∈ endpoints calls → k ∉ JS.Object_prototype_keys) →
       ∀ e, e ∈ edges data →
         {| key := from e |} ∈ nodes data ∧ {| key := to e |} ∈ nodes data).
Proof.
  exists (unfiltered calls). split; [done|].
  pose proof (unfiltered_keys calls) as Hk.
  pose proof (unfiltered_edges calls) as He.
  split; [|split; [|split]].
  - intros v Hv.
    assert (Hin : key v ∈ key <$> nodes (unfiltered calls))
      by by apply list_elem_of_fmap_2.
    rewrite Hk in Hin. apply elem_of_vertex_keys in Hin as [Hin _].
    apply elem_of_endpoints in Hin as (call & Hc & Hends).
    exists (toEdge call). split.
    + rewrite He. by apply list_elem_of_fmap_2.
    + simpl. destruct Hends as [->| ->]; auto.
  - rewrite <- (length_fmap key), Hk, He, length_fmap.
    rewrite <- length_endpoints. unfold vertex_keys.
    etrans; [apply length_filter|apply length_first_occurrences].
  - rewrite He, length_fmap. apply length_filter.
  - intros Hok e Hin. rewrite He in Hin.
    apply list_elem_of_fmap in Hin as (call & -> & Hc). simpl.
    rewrite !vertex_of_key, Hk.
    assert (Hc' : call ∈ calls) by (apply list_elem_of_filter in Hc; tauto).
    split; apply elem_of_vertex_keys; split.
    + apply elem_of_endpoints. eauto.
    + apply Hok, elem_of_endpoints. eauto.
    + apply elem_of_endpoints. eauto.
    + apply Hok, elem_of_endpoints. eauto.
Qed.

Lemma formatServiceCalls_unfiltered_well_formed_witness :
  ∃ data,
    formatServiceCalls abc_calls None 0 = Some data
    ∧ ∀ e, e ∈ edges data →
        {| key := from e |} ∈ nodes data ∧ {| key := to e |} ∈ nodes data.
Proof.
  destruct (formatServiceCalls_unfiltered_well_formed abc_calls 0)
    as (data & Hd & _ & _ & _ & H).
  exists data. split; [exact Hd|]. apply H.
  apply Forall_forall. by apply (bool_decide_unpack _).
Defined.


Lemma hops_endpoint calls s n x :
  hops calls s n x → x = s ∨ x ∈ endpoints calls.
Proof.
  destruct 1 as [|n x call y _ Hc Hl]; [by left|].
  right. by eapply links_endpoint.
Qed.

Lemma filter_all {A} (P : A → Prop) `{∀ x, Decision (P x)} (l : list A) :
  (∀ x, x ∈ l → P x) → filter P l = l.
Proof.
  induction l as [|a l IH]; intros Hall; [done|].
  rewrite filter_cons, decide_True by (apply Hall; by left).
  rewrite IH; [done|]. intros x Hx. apply Hall. by right.
Qed.

(** X8. When every input call has two non-blank names and no name is one
    that [nodeMap] inherits, the focal view is part of the full view:
    each of its edges is an edge of the unfiltered result, and so is each
    of its vertices, the focal service itself possibly apart. *)
Theorem focal_view_within_full calls focal selectedDepth :
  focal ≠ "" →
  (∀ call, call ∈ calls → named call) →
  (∀ k, k ∈ endpoints calls → k ∉ JS.Object_prototype_keys) →
  ∃ view full,
    formatServiceCalls calls (Some focal) selectedDepth = Some view
    ∧ formatServiceCalls calls None selectedDepth = Some full
    ∧ (∀ e, e ∈ edges view → e ∈ edges full)
    ∧ (∀ v, v ∈ nodes view → key v = focal ∨ v ∈ nodes full).
Proof.
  intros Hf Hnamed Hok.
  destruct (findConnectedServices_nodes calls focal selectedDepth)
    as (r & Hr & Hg & Hx).
  unfold formatServiceCalls. rewrite (proj2 (String.eqb_neq focal "") Hf), Hr.
  simpl. eexists _, _. split; [done|]. split; [done|]. simpl.
  pose proof (filter_all named calls Hnamed) as Hall.
  split.
  - intros e (call & -> & Hc)%list_elem_of_fmap.
    rewrite unfiltered_edges, Hall. apply list_elem_of_fmap_2.
    by destruct (grown_edges _ _ _ _ Hg call Hc).
  - intros [k] Hk. simpl. apply vertex_of_node in Hk.
    apply Hx in Hk as (n & _ & [->|Hend]%hops_endpoint); [by left|].
    right. rewrite vertex_of_key, unfiltered_keys, Hall.
    apply elem_of_vertex_keys. auto.
Qed.

Lemma focal_view_within_full_witness :
  ∃ view full,
    formatServiceCalls abc_calls (Some "b") 1 = Some view
    ∧ formatServiceCalls abc_calls None 1 = Some full
    ∧ (∀ e, e ∈ edges view → e ∈ edges full)
    ∧ (∀ v, v ∈ nodes view → key v = "b" ∨ v ∈ nodes full).
Proof.
  apply (focal_view_within_full abc_calls "b" 1).
  - discriminate.
  - apply Forall_forall. by apply (bool_decide_unpack _).
  - apply Forall_forall. by apply (bool_decide_unpack _).
Defined.

(** ** Further properties of the [DAG] component *)

(** X9. With a focal service, the error panel is shown exactly when more
    than [DAG_MAX_NUM_SERVICES] services lie within [selectedDepth] hops
    of it. *)
Theorem DAG_focal_ceiling (DAG_MAX_NUM_SERVICES : Z) (props : TProps) :
  selectedService props ≠ "" →
  ∃ shown,
    DAG DAG_MAX_NUM_SERVICES props = Some shown
    ∧ ((∃ text, shown = ErrorPanel text)
       ↔ (Z.of_nat (reachable_count (serviceCalls props)
                      (selectedService props)
                      (Z.to_nat (selectedDepth props)))
          > DAG_MAX_NUM_SERVICES)%Z).
Proof.
  intros Hf.
  destruct (findConnectedServices_nodes (serviceCalls props)
              (selectedService props) (selectedDepth props))
    as (r & Hr & _ & _).
  pose proof (findConnectedServices_count _ _ _ _ Hr) as Hcount.
  unfold DAG, formatServiceCalls.
  rewrite (proj2 (String.eqb_neq _ "") Hf), Hr. simpl.
  eexists. split; [done|].
  unfold render, forceFocalServiceSelection. simpl.
  rewrite length_fmap, Hcount.
  destruct (_ >? _)%Z eqn:E.
  - apply Z.gtb_gt in E. split; [done|eauto].
  - rewrite Z.gtb_ltb in E. apply Z.ltb_ge in E.
    split; [by intros [text ?]|lia].
Qed.

Lemma DAG_focal_ceiling_witness :
  ∃ shown,
    DAG 3 {| serviceCalls := abc_calls; selectedLayout := "dot";
             selectedDepth := 2; selectedService := "b";
             uiFind := None; onMatchCountChange := false |} = Some shown
    ∧ ((∃ text, shown = ErrorPanel text)
       ↔ (Z.of_nat (reachable_count abc_calls "b" (Z.to_nat 2)) > 3)%Z).
Proof.
  apply (DAG_focal_ceiling 3
           {| serviceCalls := abc_calls; selectedLayout := "dot";
              selectedDepth := 2; selectedService := "b";
              uiFind := None; onMatchCountChange := false |}).
  discriminate.
Defined.

(** X10. Without a focal service, an input of at most
    [DAG_MAX_NUM_SERVICES / 2] calls is always drawn: the error panel
    cannot appear. *)
Theorem DAG_unfiltered_small (DAG_MAX_NUM_SERVICES : Z) (props : TProps) :
  selectedService props = "" →
  (2 * Z.of_nat (length (serviceCalls props)) ≤ DAG_MAX_NUM_SERVICES)%Z →
  ∃ k data,
    formatServiceCalls (serviceCalls props) None (selectedDepth props) = Some data
    ∧ DAG DAG_MAX_NUM_SERVICES props = Some (Digraph k (edges data) (nodes data)).
Proof.
  intros Hs Hsmall.
  assert (Hlen : (length (nodes (unfiltered (serviceCalls props)))
                  ≤ 2 * length (serviceCalls props))%nat).
  { rewrite <- (length_fmap key), unfiltered_keys, <- length_endpoints.
    unfold vertex_keys.
    etrans; [apply length_filter|].
    etrans; [apply length_first_occurrences|].
    rewrite !length_endpoints.
    pose proof (length_filter named (serviceCalls props)). lia. }
  unfold DAG, formatServiceCalls. rewrite Hs. simpl.
  unfold render, forceFocalServiceSelection.
  destruct (_ >? _)%Z eqn:E.
  - apply Z.gtb_gt in E. lia.
  - eauto.
Qed.

Lemma DAG_unfiltered_small_witness :
  ∃ k data,
    formatServiceCalls abc_calls None 0 = Some data
    ∧ DAG 6 {| serviceCalls := abc_calls; selectedLayout := "dot";
               selectedDepth := 0; selectedService := "";
               uiFind := None; onMatchCountChange := false |}
      = Some (Digraph k (edges data) (nodes data)).
Proof.
  apply (DAG_unfiltered_small 6
           {| serviceCalls := abc_calls; selectedLayout := "dot";
              selectedDepth := 0; selectedService := "";
              uiFind := None; onMatchCountChange := false |});
    [reflexivity|simpl; lia].
Defined.

(** ** [renderNode] *)

Lemma count_where_none {A} (P : A → Prop) (l : list A) :
  (∀ x, x ∈ l → ¬ P x) → count_where P l 0.
Proof.
  induction l as [|a l IH]; intros Hno; [constructor|].
  apply count_no; [apply Hno; by left|].
  apply IH. intros x Hx. apply Hno. by right.
Qed.

Lemma count_where_iff {A} (P Q : A → Prop) (l : list A) n :
  (∀ x, P x ↔ Q x) → count_where P l n → count_where Q l n.
Proof.
  intros HPQ. induction 1 as [|x l n Hx _ IH|x l n Hx _ IH].
  - constructor.
  - apply count_yes; [by apply HPQ|done].
  - apply count_no; [by rewrite <- HPQ|done].
Qed.

(** Among vertices with pairwise distinct keys, exactly one has a key
    that occurs. *)
Lemma count_where_key (vs : list TVertex) k :
  NoDup (key <$> vs) → k ∈ key <$> vs →
  count_where (λ v, key v = k) vs 1.
Proof.
  induction vs as [|v vs IH]; intros Hnd Hin.
  - by apply elem_of_nil in Hin.
  - rewrite fmap_cons in Hnd, Hin. apply NoDup_cons in Hnd as [Hv Hnd].
    destruct (decide (key v = k)) as [<-|Hne].
    + apply count_yes; [done|]. apply count_where_none.
      intros x Hx E. apply Hv. rewrite <- E. by apply list_elem_of_fmap_2.
    + apply count_no; [done|]. apply IH; [done|].
      apply elem_of_cons in Hin as [?|?]; [congruence|done].
Qed.

Lemma marked_is_match v selectedService uiFind :
  marked "is-match" (renderNode (Some v) selectedService uiFind)
  ↔ isMatch uiFind v = true.
Proof.
  unfold marked, renderNode. cbv zeta. fold (isMatch uiFind v).
  set (focal := match selectedService with Some s => _ | None => _ end).
  split.
  - intros (view & [= <-] & H). simpl in H.
    destruct (isMatch uiFind v); [done|]. by destruct focal.
  - intros ->. eexists. split; [done|]. simpl. by destruct focal.
Qed.

Lemma marked_is_focal v selectedService uiFind :
  marked "is-focalNode" (renderNode (Some v) selectedService uiFind)
  ↔ selectedService = Some (key v).
Proof.
  unfold marked, renderNode. cbv zeta. fold (isMatch uiFind v).
  split.
  - intros (view & [= <-] & H). simpl in H.
    destruct selectedService as [s|].
    + destruct (String.eqb (key v) s) eqn:E.
      * apply String.eqb_eq in E. by rewrite E.
      * by destruct (isMatch uiFind v).
    + by destruct (isMatch uiFind v).
  - intros ->. eexists. split; [done|]. simpl.
    rewrite String.eqb_refl. by destruct (isMatch uiFind v).
Qed.

(** X11. For every list of vertices, every query (none, empty or not) and
    every focal service, the count that the effect passes to
    [onMatchCountChange] for this list is the number of its vertices for
    which [renderNode] returns a circle with the class [is-match]. *)
Theorem match_count_is_highlight_count dataNodes selectedService uiFind :
  ∃ n, matchCountEffect dataNodes uiFind true = Some (Z.of_nat n)
       ∧ count_where
           (λ v, marked "is-match" (renderNode (Some v) selectedService uiFind))
           dataNodes n.
Proof.
  exists (length (List.filter (isMatch uiFind) dataNodes)). split.
  - unfold matchCountEffect, isMatch. destruct uiFind as [q|].
    + destruct (String.eqb q ""); simpl; [|done].
      induction dataNodes; simpl; [done|]. by rewrite <- IHdataNodes.
    + induction dataNodes; simpl; [done|]. by rewrite <- IHdataNodes.
  - apply count_where_filter. intros v. by rewrite marked_is_match.
Qed.

Lemma unfiltered_key_not_empty calls v :
  v ∈ nodes (unfiltered calls) → key v ≠ "".
Proof.
  intros Hv.
  assert (Hk : key v ∈ key <$> nodes (unfiltered calls))
    by by apply list_elem_of_fmap_2.
  rewrite unfiltered_keys in Hk.
  apply elem_of_vertex_keys in Hk as [Hk _].
  apply endpoints_named in Hk.
  intros E. apply Hk. rewrite E. apply blank_empty.
Qed.

(** X12. Of the vertices that [formatServiceCalls] returns for the
    selected service, [renderNode] draws exactly one with the class
    [is-focalNode] when the selected service is non-empty, and none when
    it is empty. *)
Theorem one_focal_node calls selectedService selectedDepth uiFind :
  ∃ data,
    formatServiceCalls calls (Some selectedService) selectedDepth = Some data
    ∧ count_where
        (λ v, marked "is-focalNode"
                (renderNode (Some v) (Some selectedService) uiFind))
        (nodes data)
        (if decide (selectedService = "") then 0 else 1).
Proof.
  destruct (decide (selectedService = "")) as [->|Hf].
  - exists (unfiltered calls). split; [done|].
    apply count_where_none. intros v Hv [= E]%marked_is_focal.
    by eapply unfiltered_key_not_empty.
  - destruct (findConnectedServices_invariant calls selectedService selectedDepth)
      as (r & Hr & Hg & _).
    unfold formatServiceCalls.
    rewrite (proj2 (String.eqb_neq _ "") Hf), Hr. cbn [mbind option_bind].
    eexists. split; [done|]. cbn [nodes].
    apply (count_where_iff (λ v, key v = selectedService)).
    + intros v. split.
      * intros <-. by apply marked_is_focal.
      * by intros [= ->]%marked_is_focal.
    + apply count_where_key; rewrite keys_of_vertices.
      * by eapply grown_NoDup.
      * eapply list_elem_of_lookup_2, grown_first, Hg.
Qed.

(** ** The layout manager *)

(** X13. For every layout other than [dot] the options are those of the
    force-directed engine, with a resolution between 202 and 2000 dpi: it
    reaches the cap 2000 exactly from 1000 nodes on, and lies below the
    default 300 exactly between 101 and 149 nodes. *)
Theorem layoutConfig_dpi selectedLayout nodeCount :
  selectedLayout ≠ "dot" →
  ∃ dpi,
    layoutConfig selectedLayout nodeCount
    = SfdpOptions "sfdp" "false" 1 false 2 dpi
    ∧ (202 ≤ dpi ≤ 2000)%Z
    ∧ (dpi = 2000 ↔ 1000 ≤ nodeCount)%Z
    ∧ (dpi < 300 ↔ 100 < nodeCount < 150)%Z.
Proof.
  intros Hl. unfold layoutConfig.
  rewrite (proj2 (String.eqb_neq _ _) Hl).
  eexists. split; [done|].
  destruct (nodeCount >? 100)%Z eqn:E.
  - apply Z.gtb_gt in E. lia.
  - rewrite Z.gtb_ltb in E. apply Z.ltb_ge in E. lia.
Qed.

Lemma layoutConfig_dpi_witness :
  ∃ dpi,
    layoutConfig "sfdp" 120 = SfdpOptions "sfdp" "false" 1 false 2 dpi
    ∧ (202 ≤ dpi ≤ 2000)%Z
    ∧ (dpi = 2000 ↔ 1000 ≤ 120)%Z
    ∧ (dpi < 300 ↔ 100 < 120 < 150)%Z.
Proof. apply (layoutConfig_dpi "sfdp" 120). discriminate. Defined.

Lemma rerender_same m deps :
  (String.eqb (memoDeps m).1 deps.1 && Z.eqb (memoDeps m).2 deps.2) = true
  ↔ memoDeps m = deps.
Proof.
  rewrite andb_true_iff, String.eqb_eq, Z.eqb_eq.
  destruct (memoDeps m), deps. simpl. split; [by intros [-> ->]|by intros [= -> ->]].
Qed.

(** What the hooks maintain from render to render. *)
Lemma renders_invariant first later :
  let m := renders first later in
  released m = seq 0 (managerId (layoutManager m))
  ∧ created m = S (managerId (layoutManager m))
  ∧ memoDeps m = default first (last later)
  ∧ options (layoutManager m) = layoutConfig (memoDeps m).1 (memoDeps m).2.
Proof.
  unfold renders. induction later as [|deps later IH] using rev_ind; [done|].
  rewrite fold_left_app, last_snoc. simpl.
  set (m := fold_left rerender later (mount first)) in *.
  destruct IH as (Hrel & Hcre & Hdeps & Hopt).
  unfold rerender.
  destruct (_ && _) eqn:E.
  - apply rerender_same in E. by rewrite <- E.
  - simpl. rewrite Hcre, seq_S, Hrel. done.
Qed.

(** X14. Life cycle of the layout manager: after any sequence of renders,
    only the current manager is unreleased and it carries the options of
    the last render's layout and node count; at most one manager was
    created per render; and once the component is removed, every manager
    ever created has been released, once each, in order of creation. *)
Theorem layoutManager_released first later :
  let m := renders first later in
  released m = seq 0 (created m - 1)
  ∧ managerId (layoutManager m) = (created m - 1)%nat
  ∧ options (layoutManager m)
    = layoutConfig (default first (last later)).1 (default first (last later)).2
  ∧ (created m ≤ 1 + length later)%nat
  ∧ unmount m = seq 0 (created m).
Proof.
  pose proof (renders_invariant first later) as (Hrel & Hcre & Hdeps & Hopt).
  cbv zeta. rewrite Hcre. simpl. rewrite Nat.sub_0_r.
  split; [done|]. split; [done|]. split; [by rewrite <- Hdeps|].
  split.
  - rewrite <- Hcre. unfold renders. clear.
    induction later as [|deps later IH] using rev_ind; [simpl; lia|].
    rewrite fold_left_app, length_app. simpl. unfold rerender at 1.
    destruct (_ && _); simpl; lia.
  - unfold unmount. by rewrite Hrel, <- seq_S.
Qed.

(** ** Further properties of the match count *)

Lemma lowerCaseUnit_idem c :
  JS.lowerCaseUnit (JS.lowerCaseUnit c) = JS.lowerCaseUnit c.
Proof. destruct c as [[] [] [] [] [] [] [] []]; reflexivity. Qed.

Lemma toLowerCase_idem s :
  JS.toLowerCase (JS.toLowerCase s) = JS.toLowerCase s.
Proof.
  induction s as [|c s IH]; simpl; [done|].
  by rewrite lowerCaseUnit_idem, IH.
Qed.

Lemma toLowerCase_eqb_empty s :
  String.eqb (JS.toLowerCase s) "" = String.eqb s "".
Proof. by destruct s. Qed.

Lemma length_filter_fmap {A B} (f : B → bool) (g : A → B) (l : list A) :
  length (List.filter f (g <$> l)) = length (List.filter (λ x, f (g x)) l).
Proof.
  induction l as [|a l IH]; [done|].
  rewrite fmap_cons. simpl. destruct (f (g a)); simpl; by rewrite IH.
Qed.

(** X16. The report does not depend on letter case: lower-casing the
    query, or the key of every node, leaves it unchanged; and a reported
    count lies between zero and the number of nodes. *)
Theorem matchCountEffect_case_blind dataNodes q onMatchCountChange :
  matchCountEffect dataNodes (Some (JS.toLowerCase q)) onMatchCountChange
  = matchCountEffect dataNodes (Some q) onMatchCountChange
  ∧ matchCountEffect
      ((λ node, {| key := JS.toLowerCase (key node) |}) <$> dataNodes)
      (Some q) onMatchCountChange
    = matchCountEffect dataNodes (Some q) onMatchCountChange
  ∧ ∀ uiFind n,
      matchCountEffect dataNodes uiFind onMatchCountChange = Some n →
      (0 ≤ n ≤ Z.of_nat (length dataNodes))%Z.
Proof.
  split; [|split].
  - unfold matchCountEffect.
    by rewrite toLowerCase_eqb_empty, toLowerCase_idem.
  - unfold matchCountEffect.
    destruct (negb (String.eqb q "") && onMatchCountChange); [|done].
    rewrite length_filter_fmap. simpl.
    do 3 f_equal. apply List.filter_ext. intros node.
    by rewrite toLowerCase_idem.
  - intros uiFind n. unfold matchCountEffect.
    assert (H0 : Some 0 = Some n → (0 ≤ n ≤ Z.of_nat (length dataNodes))%Z).
    { intros [= <-]. lia. }
    destruct uiFind as [q'|]; [|by destruct onMatchCountChange].
    destruct (negb (String.eqb q' "") && onMatchCountChange).
    + intros [= <-].
      pose proof (List.filter_length_le
        (λ node, JS.includes (JS.toLowerCase (key node)) (JS.toLowerCase q'))
        dataNodes). lia.
    + by destruct onMatchCountChange.
Qed.

(** ** Depths beyond the size of the input *)

Lemma grown_edges_NoDup calls s ns es : grown calls s ns es → NoDup es.
Proof.
  induction 1 as [|ns es x y call Hg IH Hc Hl Hx Hy]; [constructor|].
  apply NoDup_app. split; [done|]. split; [|apply NoDup_singleton].
  intros c Hin ->%list_elem_of_singleton.
  destruct (grown_edges _ _ _ _ Hg call Hin) as (_ & Hp & Hch).
  apply Hy. by destruct Hl as [[_ <-]|[_ <-]].
Qed.

Lemma grown_edges_length calls s ns es :
  grown calls s ns es → (length es ≤ length calls)%nat.
Proof.
  intros Hg. apply submseteq_length, NoDup_submseteq.
  - by eapply grown_edges_NoDup.
  - intros call Hc. by destruct (grown_edges _ _ _ _ Hg call Hc).
Qed.

(** X17. A depth larger than the number of input calls returns the whole
    connected component of the start service: every service joined to it
    by input edges, taken in either direction, over any number of hops. *)
Theorem findConnectedServices_saturates calls s maxDepth :
  (Z.of_nat (length calls) < maxDepth)%Z →
  ∃ r, findConnectedServices calls s maxDepth = Some r
       ∧ ∀ x, x ∈ nodes r ↔ ∃ n, hops calls s n x.
Proof.
  intros Hbig.
  destruct (findConnectedServices_nodes calls s maxDepth)
    as (r & Hr & Hg & Hx).
  destruct (findConnectedServices_breadth_first calls s maxDepth)
    as (past & t & Ht & Q & Hbf).
  assert (r = found t) as -> by congruence.
  exists (found t). split; [done|]. intros x. split.
  { intros (n & _ & ?)%Hx. eauto. }
  pose proof (bf_nodes _ _ _ _ _ Hbf) as Hn. rewrite Q, app_nil_r in Hn.
  assert (Hlen : (length past ≤ S (length calls))%nat).
  { rewrite <- (length_fmap service), Hn, (grown_length _ _ _ _ Hg).
    pose proof (grown_edges_length _ _ _ _ Hg). lia. }
  assert (Hdepth : ∀ e, e ∈ past → depth e < maxDepth).
  { intros e (i & Hi)%list_elem_of_lookup_1.
    pose proof (lookup_lt_Some _ _ _ Hi).
    pose proof (bf_index _ _ _ _ _ Hbf i e) as Hix.
    rewrite Q, app_nil_r in Hix. specialize (Hix Hi). lia. }
  pose proof (bf_closed _ _ _ _ _ Hbf) as Hc. rewrite Q, app_nil_r in Hc.
  pose proof (bf_start _ _ _ _ _ Hbf) as Hs. rewrite Q, app_nil_r in Hs.
  intros (n & Hh). rewrite <- Hn.
  cut (∃ e, e ∈ past ∧ service e = x).
  { intros (e & He & <-). by apply list_elem_of_fmap_2. }
  induction Hh as [|n x call y _ IH Hcall Hl].
  - destruct Hs as (e & ? & ? & _). eauto.
  - destruct IH as (e & He & <-).
    destruct (Hc e He (Hdepth e He) call y Hcall Hl) as (e' & ? & ? & _).
    eauto.
Qed.

Lemma findConnectedServices_saturates_witness :
  ∃ r, findConnectedServices abc_calls "b" 4 = Some r
       ∧ ∀ x, x ∈ nodes r ↔ ∃ n, hops abc_calls "b" n x.
Proof. apply (findConnectedServices_saturates abc_calls "b" 4). simpl. lia. Defined.
